(** * Scarab.js scheduling core: queues, events and entities

    A shallow embedding of [src/framework/queues.ts], [events.ts] and
    [entities.ts] -- and, after them, of [util.ts], [logging.ts] and the
    entity registry and handler lists of [simulation.ts] -- together with
    the properties proved about them.

    Conventions of the embedding:
    - a JavaScript method that mutates [this] becomes a function from the
      receiver's state to the new state paired with what the call produced
      (a returned value or a thrown error);
    - a JavaScript object used as a dictionary is a [gmap];
    - [undefined]/[null] for an optional field or argument is [None];
    - the [while] loop of [EventQueue.next] is run with explicit fuel. *)

From Stdlib Require Import ZArith QArith Qcanon Ascii Sorted Permutation.
From stdpp Require Import gmap strings list fin_maps numbers sorting.

Local Open Scope Z_scope.

(** ** JavaScript values the modelled code manipulates *)

(** A JavaScript [number].  Finite values are exact rationals (rounding of
    IEEE doubles is not modelled); the three non-finite values are kept
    because truthiness, [Number.isInteger], [>] and [Math.min] treat them
    specially. *)
Inductive number : Type :=
| Finite (q : Qc)
| PosInfinity
| NegInfinity
| NaN.

Global Instance number_eq_dec : EqDecision number.
Proof. solve_decision. Defined.

Definition number_code (n : number) : Qc + nat :=
  match n with
  | Finite q => inl q
  | PosInfinity => inr 0%nat
  | NegInfinity => inr 1%nat
  | NaN => inr 2%nat
  end.

Definition number_decode (c : Qc + nat) : number :=
  match c with
  | inl q => Finite q
  | inr 0%nat => PosInfinity
  | inr 1%nat => NegInfinity
  | inr _ => NaN
  end.

Global Instance number_countable : Countable number.
Proof.
  apply (inj_countable' number_code number_decode).
  intros []; reflexivity.
Defined.

(** The number denoted by an integer literal or an integer counter. *)
Definition of_Z (z : Z) : number := Finite (Q2Qc (inject_Z z)).
Arguments of_Z : simpl never.

(** [!!n] for a number: 0 and NaN are falsy, everything else is truthy. *)
Definition truthy_number (n : number) : bool :=
  match n with
  | Finite q => negb (bool_decide (q = Q2Qc 0))
  | NaN => false
  | PosInfinity | NegInfinity => true
  end.

(** [!!x] for an optional number ([undefined] and [null] are falsy). *)
Definition truthy_time (t : option number) : bool :=
  match t with
  | Some n => truthy_number n
  | None => false
  end.

(** [Number.isInteger]. *)
Definition isInteger (n : number) : bool :=
  match n with
  | Finite q => bool_decide (Qden (this q) = 1%positive)
  | _ => false
  end.

(** [n > z] where [z] is an integer counter. *)
Definition gt_Z (n : number) (z : Z) : bool :=
  match n with
  | Finite q => bool_decide (Qclt (Q2Qc (inject_Z z)) q)
  | PosInfinity => true
  | NegInfinity | NaN => false
  end.

(** [Math.min] of two arguments, then of an argument list: NaN is
    contagious and the minimum of no argument is [Infinity]. *)
Definition min2 (a b : number) : number :=
  match a, b with
  | NaN, _ | _, NaN => NaN
  | NegInfinity, _ | _, NegInfinity => NegInfinity
  | PosInfinity, x | x, PosInfinity => x
  | Finite p, Finite q => if bool_decide (Qcle p q) then Finite p else Finite q
  end.

Definition Math_min (args : list number) : number :=
  foldr min2 PosInfinity args.

(** Primitive values a property bag can hold. *)
Inductive value : Type :=
| VUndefined
| VNull
| VBool (b : bool)
| VNum (n : number)
| VStr (s : string).

Global Instance value_eq_dec : EqDecision value.
Proof. solve_decision. Defined.

(** What a call produced.  [assert] of [util.ts] throws a plain [Error]
    carrying a message: that is the validation failure, recorded here by the
    assertion that failed and the values its message interpolates.  The two
    other errors come from the runtime: [RegExp(p)] on a string that is no
    regular expression, and a method call on [undefined]. *)
Inductive assertion : Type :=
| EventsMustHaveAName
    (* "Events must have a name." *)
| UpdatingPriorityList
    (* "Updating priority list not currently supported." *)
| TimeNotInteger (timeToUse : number)
    (* `Time ${timeToUse} is not an integer.` *)
| TimeBeforeCurrent (timeToUse : number) (currentTime : Z)
    (* `Time ${timeToUse} is before current timeToUse (${currentTime})` *)
| NameMustBeProvided (registry : string)
    (* "An event name must be provided for an event handler" and its three
       siblings, told apart by the registry the handler was meant for. *).

Inductive error : Type :=
| ValidationError (failed : assertion)
| SyntaxError
| TypeError.

Inductive outcome (A : Type) : Type :=
| Returned (a : A)
| Thrown (e : error).
Arguments Returned {A} a.
Arguments Thrown {A} e.

(** [assert(condition, message)] of [util.ts]. *)
Definition assert (condition : bool) (message : assertion) : outcome unit :=
  if condition then Returned tt else Thrown (ValidationError message).

(** ** The regular-expression engine

    [RegExp(pattern).test(text)] belongs to the JavaScript runtime, not to
    the repository: the queues are parametrised by it.  [None] stands for
    the [SyntaxError] that [RegExp] throws on a malformed pattern. *)
Class RegExp := RegExp_test : string -> string -> option bool.

(** A concrete engine for a fragment of the pattern language: an optional
    leading [^], then atoms -- a character that is not a metacharacter, or
    [.] -- each optionally followed by one [*], then an optional trailing
    [$].  This covers every pattern of the repository's tests.  On the
    fragment it decides whether the pattern matches somewhere in the text,
    with the classical three-function matcher; outside of it (among others
    a pattern that starts with [*], which has nothing to repeat) it gives
    [None]. *)
Definition is_metachar (c : ascii) : bool :=
  bool_decide (c ∈ ["\"; "^"; "$"; "."; "|"; "?"; "*"; "+"; "("; ")";
                    "["; "]"; "{"; "}"]%char).

Definition is_atom (c : ascii) : bool :=
  negb (is_metachar c) || bool_decide (c = "."%char).

(** Atoms, then possibly the end anchor. *)
Fixpoint atoms_ok (re : list ascii) : bool :=
  match re with
  | [] => true
  | c :: rest =>
    match rest with
    | [] => is_atom c || bool_decide (c = "$"%char)
    | star :: rest' =>
      is_atom c
      && (if bool_decide (star = "*"%char) then atoms_ok rest'
          else atoms_ok rest)
    end
  end.

Definition char_matches (c t : ascii) : bool :=
  bool_decide (c = "."%char) || bool_decide (c = t).

Fixpoint matchhere (fuel : nat) (re text : list ascii) : bool :=
  match fuel with
  | O => false
  | S fuel' =>
    match re with
    | [] => true
    | c :: re' =>
      match re' with
      | star :: re'' =>
        if bool_decide (star = "*"%char) then
          matchhere fuel' re'' text
          || match text with
             | t :: text' => char_matches c t && matchhere fuel' re text'
             | [] => false
             end
        else
          match text with
          | t :: text' => char_matches c t && matchhere fuel' re' text'
          | [] => false
          end
      | [] =>
        if bool_decide (c = "$"%char) then bool_decide (text = [])
        else
          match text with
          | t :: text' => char_matches c t && matchhere fuel' [] text'
          | [] => false
          end
      end
    end
  end.

Fixpoint matchanywhere (fuel : nat) (re text : list ascii) : bool :=
  matchhere fuel re text
  || match text with
     | _ :: text' => matchanywhere fuel re text'
     | [] => false
     end.

Definition miniRegExp : RegExp := fun pattern text =>
  let re := String.list_ascii_of_string pattern in
  let tx := String.list_ascii_of_string text in
  let fuel := S (length re + length tx) in
  match re with
  | c :: re' =>
    if bool_decide (c = "^"%char) then
      if atoms_ok re' then Some (matchhere fuel re' tx) else None
    else
      if atoms_ok re then Some (matchanywhere fuel re tx) else None
  | [] => Some true
  end.

(** ** Events as the queues see them ([events.ts], class [Event])

    [name] and [time] are the two fields the queues read and write; both may
    be missing on the plain objects callers pass.  Everything else an event
    carries ([guid], user properties) is in [fields]. *)
Module Event.

Record t : Type := mk {
  name : option string;
  time : option number;
  fields : gmap string value
}.


(** Truthiness of [event.name]: a missing name and the empty string are
    falsy. *)
Definition truthy_name (ev : t) : bool :=
  match name ev with
  | Some s => negb (bool_decide (s = ""))
  | None => false
  end.

(** The text [RegExp.prototype.test] sees: its argument converted to a
    string, so a missing name is matched as the text "undefined". *)
Definition name_text (ev : t) : string :=
  match name ev with
  | Some s => s
  | None => "undefined"
  end.

(** [event.time = t]. *)
Definition set_time (t0 : number) (ev : t) : t :=
  {| name := name ev; time := Some t0; fields := fields ev |}.

(** [Object.assign(target, source)] on property maps: every property of
    [source] is written over [target]. *)
Definition Object_assign (target source : gmap string value)
  : gmap string value :=
  source ∪ target.

(** The constructor of class [Event], as the property map of the object it
    builds.  [uuid] is what [uuidv4()] returned for this call. *)
Definition new (uuid : string) (name : string)
    (properties : gmap string value) : gmap string value :=
  Object_assign
    (<["time" := VUndefined]>
       (<["guid" := VStr uuid]> (<["name" := VStr name]> ∅)))
    properties.

End Event.

(** ** [PriorityQueue] ([queues.ts]) *)
Module PriorityQueue.

Record t : Type := mk {
  _priorityList : list string;
  _eventQueues : gmap string (list Event.t);
  _length : nat
}.

(** ["*" in priorityList].  JavaScript's [in] asks whether its left operand
    is a property name of the object: for an array these are the indices,
    "length" and the inherited method names, never the elements.  The
    asterisk is none of them, whatever the array holds. *)
Definition star_is_property (priorityList : list string) : bool := false.

(** [setPriorities]: the caller's list is copied, the catch-all pattern (the
    empty regular expression) is pushed, and every pattern gets a fresh
    empty bucket.  [_length] is not touched. *)
Definition setPriorities (q : t) (priorityList : list string) : t :=
  let patterns :=
    if star_is_property priorityList then priorityList
    else priorityList ++ [""] in
  {| _priorityList := patterns;
     _eventQueues :=
       foldl (fun queues eventName => <[eventName := []]> queues) ∅ patterns;
     _length := _length q |}.

(** The constructor. *)
Definition new (priorityList : list string) : t :=
  setPriorities {| _priorityList := []; _eventQueues := ∅; _length := 0 |}
                priorityList.

Section Engine.
Context `{RegExp}.

(** [this._priorityList.find(value => RegExp(value).test(event.name))]:
    [Returned None] is the [undefined] that [find] gives when the scan falls
    through. *)
Fixpoint find_pattern (text : string) (patterns : list string)
  : outcome (option string) :=
  match patterns with
  | [] => Returned None
  | value :: rest =>
    match RegExp_test value text with
    | None => Thrown SyntaxError
    | Some true => Returned (Some value)
    | Some false => find_pattern text rest
    end
  end.

(** The property key [this._eventQueues[queueName]] reads. *)
Definition queue_key (queueName : option string) : string :=
  match queueName with
  | Some n => n
  | None => "undefined"
  end.

(** [add]. *)
Definition add (q : t) (event : Event.t) : t * outcome unit :=
  match find_pattern (Event.name_text event) (_priorityList q) with
  | Thrown e => (q, Thrown e)
  | Returned queueName =>
    match _eventQueues q !! queue_key queueName with
    | None => (q, Thrown TypeError)
    | Some queue =>
      ({| _priorityList := _priorityList q;
          _eventQueues :=
            <[queue_key queueName := queue ++ [event]]> (_eventQueues q);
          _length := S (_length q) |},
       Returned tt)
    end
  end.

End Engine.

(** The [for] loop of [next]: the first bucket, in the order of the
    priority list, that holds an event, with its head and its tail. *)
Fixpoint next_scan (queues : gmap string (list Event.t)) (names : list string)
  : outcome (option (string * Event.t * list Event.t)) :=
  match names with
  | [] => Returned None
  | queueName :: rest =>
    match queues !! queueName with
    | None => Thrown TypeError
    | Some [] => next_scan queues rest
    | Some (event :: queue) => Returned (Some (queueName, event, queue))
    end
  end.

(** [next]: [Returned None] is the [null] of the source. *)
Definition next (q : t) : t * outcome (option Event.t) :=
  if bool_decide (_length q = 0%nat) then (q, Returned None)
  else
    match next_scan (_eventQueues q) (_priorityList q) with
    | Thrown e => (q, Thrown e)
    | Returned None => (q, Returned None)
    | Returned (Some (queueName, event, queue)) =>
      ({| _priorityList := _priorityList q;
          _eventQueues := <[queueName := queue]> (_eventQueues q);
          _length := pred (_length q) |},
       Returned (Some event))
    end.

Definition length (q : t) : nat := _length q.

Definition isEmpty (q : t) : bool := bool_decide (_length q = 0%nat).

End PriorityQueue.

(** ** [StrictPriorityQueue] *)
Module StrictPriorityQueue.

Definition setPriorities (q : PriorityQueue.t) (priorityList : list string)
  : PriorityQueue.t * outcome unit :=
  match assert (bool_decide
                  (List.length (PriorityQueue._priorityList q) = 0%nat))
               UpdatingPriorityList with
  | Thrown e => (q, Thrown e)
  | Returned _ => (PriorityQueue.setPriorities q priorityList, Returned tt)
  end.

(** The constructor: [Array.isArray] holds of every list, and the base
    constructor's call of [this.setPriorities] dispatches to the strict
    method above. *)
Definition new (priorityList : list string)
  : PriorityQueue.t * outcome unit :=
  setPriorities
    {| PriorityQueue._priorityList := [];
       PriorityQueue._eventQueues := ∅;
       PriorityQueue._length := 0 |}
    priorityList.

Definition add `{RegExp} (q : PriorityQueue.t) (event : Event.t)
  : PriorityQueue.t * outcome unit :=
  match assert (Event.truthy_name event) EventsMustHaveAName with
  | Thrown e => (q, Thrown e)
  | Returned _ => PriorityQueue.add q event
  end.

End StrictPriorityQueue.

(** ** [EventQueue] *)
Module EventQueue.

Record t : Type := mk {
  _priorityList : list string;
  _timeQueues : gmap number PriorityQueue.t;
  _length : nat;
  _currentQueue : option PriorityQueue.t;
  _currentTime : Z;
  _nextTime : option number
}.

(** The constructor. *)
Definition new (priorityList : list string) : t :=
  {| _priorityList := priorityList;
     _timeQueues := ∅;
     _length := 0;
     _currentQueue := None;
     _currentTime := 0;
     _nextTime := None |}.

Definition length (q : t) : nat := _length q.
Definition isEmpty (q : t) : bool := bool_decide (_length q = 0%nat).
Definition nextTime (q : t) : option number := _nextTime q.

(** The time [add] schedules at: the [if]/[else if]/[else] on the
    truthiness of the argument, then of [event.time]. *)
Definition timeToUse (q : t) (event : Event.t) (time : option number)
  : number :=
  let fromEvent :=
    match Event.time event with
    | Some t1 => if truthy_number t1 then t1 else of_Z (_currentTime q + 1)
    | None => of_Z (_currentTime q + 1)
    end in
  match time with
  | Some t0 => if truthy_number t0 then t0 else fromEvent
  | None => fromEvent
  end.

Section Engine.
Context `{RegExp}.

(** [add].  Besides the queue the call mutates the caller's event (its
    [time] is overwritten), so the event as the call leaves it is part of
    the result.  When the bucket queue's [add] throws, what was assigned
    before stays assigned. *)
Definition add (q : t) (event : Event.t) (time : option number)
  : t * Event.t * outcome unit :=
  let timeToUse := timeToUse q event time in
  let nextTime :=
    if truthy_time (_nextTime q) then _nextTime q else Some timeToUse in
  let event' := Event.set_time timeToUse event in
  let queue :=
    match _timeQueues q !! timeToUse with
    | Some queue => queue
    | None => PriorityQueue.new (_priorityList q)
    end in
  let '(queue', result) := PriorityQueue.add queue event' in
  let timeQueues := <[timeToUse := queue']> (_timeQueues q) in
  match result with
  | Thrown e =>
    ({| _priorityList := _priorityList q;
        _timeQueues := timeQueues;
        _length := _length q;
        _currentQueue := _currentQueue q;
        _currentTime := _currentTime q;
        _nextTime := nextTime |},
     event', Thrown e)
  | Returned _ =>
    ({| _priorityList := _priorityList q;
        _timeQueues := timeQueues;
        _length := S (_length q);
        _currentQueue := _currentQueue q;
        _currentTime := _currentTime q;
        _nextTime := nextTime |},
     event', Returned tt)
  end.

End Engine.

(** [while (!this._currentQueue) { this._currentTime++; ... }], run for at
    most [fuel] iterations: [None] when the loop is still running after
    them. *)
Fixpoint advance (fuel : nat) (timeQueues : gmap number PriorityQueue.t)
    (currentTime : Z) (currentQueue : option PriorityQueue.t)
  : option (Z * PriorityQueue.t) :=
  match currentQueue with
  | Some queue => Some (currentTime, queue)
  | None =>
    match fuel with
    | O => None
    | S fuel' =>
      advance fuel' timeQueues (currentTime + 1)
              (timeQueues !! of_Z (currentTime + 1))
    end
  end.

(** [Object.keys(this._timeQueues).map(Number)]. *)
Definition times (timeQueues : gmap number PriorityQueue.t) : list number :=
  (map_to_list timeQueues).*1.

(** [next], the loop run with [fuel]: [None] when the fuel does not
    suffice, [Some (q', Returned None)] for the [null] of the source. *)
Definition next (fuel : nat) (q : t) : option (t * outcome (option Event.t)) :=
  if bool_decide (_length q = 0%nat) then Some (q, Returned None)
  else
    match advance fuel (_timeQueues q) (_currentTime q) (_currentQueue q) with
    | None => None
    | Some (currentTime, currentQueue) =>
      let timeQueues := delete (of_Z currentTime) (_timeQueues q) in
      let '(currentQueue', result) := PriorityQueue.next currentQueue in
      match result with
      | Thrown e =>
        Some ({| _priorityList := _priorityList q;
                 _timeQueues := timeQueues;
                 _length := _length q;
                 _currentQueue := Some currentQueue';
                 _currentTime := currentTime;
                 _nextTime := Some (of_Z currentTime) |},
              Thrown e)
      | Returned evt =>
        let length := pred (_length q) in
        if PriorityQueue.isEmpty currentQueue' then
          Some ({| _priorityList := _priorityList q;
                   _timeQueues := timeQueues;
                   _length := length;
                   _currentQueue := None;
                   _currentTime := currentTime;
                   _nextTime :=
                     if bool_decide (length = 0%nat) then None
                     else Some (Math_min (times timeQueues)) |},
                Returned evt)
        else
          Some ({| _priorityList := _priorityList q;
                   _timeQueues := timeQueues;
                   _length := length;
                   _currentQueue := Some currentQueue';
                   _currentTime := currentTime;
                   _nextTime := Some (of_Z currentTime) |},
                Returned evt)
      end
    end.

End EventQueue.

(** ** [StrictEventQueue] *)
Module StrictEventQueue.

(** The constructor: [Array.isArray] holds of every list. *)
Definition new (priorityList : list string) : EventQueue.t :=
  EventQueue.new priorityList.

(** The value of [time ? time : event.time] inside
    [if (time || event.time)], and [None] when that test fails. *)
Definition checkedTime (event : Event.t) (time : option number)
  : option number :=
  if truthy_time time then time
  else if truthy_time (Event.time event) then Event.time event
  else None.

Definition add `{RegExp} (q : EventQueue.t) (event : Event.t)
    (time : option number) : EventQueue.t * Event.t * outcome unit :=
  match assert (Event.truthy_name event) EventsMustHaveAName with
  | Thrown e => (q, event, Thrown e)
  | Returned _ =>
    match checkedTime event time with
    | Some timeToUse =>
      match assert (isInteger timeToUse) (TimeNotInteger timeToUse) with
      | Thrown e => (q, event, Thrown e)
      | Returned _ =>
        match assert (gt_Z timeToUse (EventQueue._currentTime q))
                (TimeBeforeCurrent timeToUse (EventQueue._currentTime q)) with
        | Thrown e => (q, event, Thrown e)
        | Returned _ => EventQueue.add q event time
        end
      end
    | None => EventQueue.add q event time
    end
  end.

End StrictEventQueue.

(** ** Entity descriptions and entities ([entities.ts])

    Descriptions and entities are mutable objects that handlers reach
    through [this]: they live in a heap, and a bound handler carries the
    address of its receiver.  A handler is an ordinary function that works
    on the properties of its receiver; what a closure could capture besides
    is not modelled, nor are the property names every JavaScript object
    inherits ("constructor", "toString", ...) as registry keys. *)
Module Entities.

Definition loc : Type := positive.

(** [EntityRef] of [events.ts]. *)
Record EntityRef : Type := mkRef {
  ref_name : string;
  ref_guid : string
}.

(** A handler as the simulation author registers it,
    [function (arg) { ... this.prop ... }]: given its argument, it maps the
    receiver's properties before the call to its properties after it. *)
Definition handler (A : Type) : Type :=
  A -> gmap string value -> gmap string value.

(** [h.bind(receiver)]. *)
Record bound (A : Type) : Type := bind {
  body : handler A;
  receiver : loc
}.
Arguments bind {A} body receiver.
Arguments body {A} b.
Arguments receiver {A} b.

(** The names of the four registries: as properties they belong to the
    object itself, so a bag entry under one of these names does not survive
    the assignment of the registry. *)
Definition registry_names : list string :=
  ["_eventHandlers"; "_entityCreatedHandlers";
   "_entityDestroyedHandlers"; "_entityUpdatedHandlers"].

Definition without_registries (m : gmap string value) : gmap string value :=
  foldr delete m registry_names.

Record EntityDescription : Type := mkDescription {
  d_properties : gmap string value;
  d_eventHandlers : gmap string (list (handler Event.t));
  d_entityCreatedHandlers : gmap string (list (handler EntityRef));
  d_entityDestroyedHandlers : gmap string (list (handler EntityRef));
  d_entityUpdatedHandlers :
    gmap string (list (handler (EntityRef * list string)))
}.

Record Entity : Type := mkEntity {
  properties : gmap string value;
  _eventHandlers : gmap string (list (bound Event.t));
  _entityCreatedHandlers : gmap string (list (bound EntityRef));
  _entityDestroyedHandlers : gmap string (list (bound EntityRef));
  _entityUpdatedHandlers :
    gmap string (list (bound (EntityRef * list string)))
}.

(** The constructor of [EntityDescription]: name and guid, then the bag
    over them, then the four empty registries. *)
Definition EntityDescription_new (uuid : string) (name : string)
    (bag : gmap string value) : EntityDescription :=
  {| d_properties :=
       without_registries
         (Event.Object_assign
            (<["guid" := VStr uuid]> (<["name" := VStr name]> ∅)) bag);
     d_eventHandlers := ∅;
     d_entityCreatedHandlers := ∅;
     d_entityDestroyedHandlers := ∅;
     d_entityUpdatedHandlers := ∅ |}.

(** [_addToHandlerToHandlers]. *)
Definition _addToHandlerToHandlers {H : Type} (dict : gmap string (list H))
    (name : string) (h : H) : gmap string (list H) :=
  match dict !! name with
  | Some handlers => <[name := handlers ++ [h]]> dict
  | None => <[name := [h]]> dict
  end.

Definition onEvent (d : EntityDescription) (eventName : string)
    (eventHandler : handler Event.t) : EntityDescription * outcome unit :=
  match assert (negb (bool_decide (eventName = "")))
               (NameMustBeProvided "event") with
  | Thrown e => (d, Thrown e)
  | Returned _ =>
    ({| d_properties := d_properties d;
        d_eventHandlers :=
          _addToHandlerToHandlers (d_eventHandlers d) eventName eventHandler;
        d_entityCreatedHandlers := d_entityCreatedHandlers d;
        d_entityDestroyedHandlers := d_entityDestroyedHandlers d;
        d_entityUpdatedHandlers := d_entityUpdatedHandlers d |},
     Returned tt)
  end.

Definition onEntityCreated (d : EntityDescription) (entityName : string)
    (h : handler EntityRef) : EntityDescription * outcome unit :=
  match assert (negb (bool_decide (entityName = "")))
               (NameMustBeProvided "entity created") with
  | Thrown e => (d, Thrown e)
  | Returned _ =>
    ({| d_properties := d_properties d;
        d_eventHandlers := d_eventHandlers d;
        d_entityCreatedHandlers :=
          _addToHandlerToHandlers (d_entityCreatedHandlers d) entityName h;
        d_entityDestroyedHandlers := d_entityDestroyedHandlers d;
        d_entityUpdatedHandlers := d_entityUpdatedHandlers d |},
     Returned tt)
  end.

Definition onEntityDestroyed (d : EntityDescription) (entityName : string)
    (h : handler EntityRef) : EntityDescription * outcome unit :=
  match assert (negb (bool_decide (entityName = "")))
               (NameMustBeProvided "entity destroyed") with
  | Thrown e => (d, Thrown e)
  | Returned _ =>
    ({| d_properties := d_properties d;
        d_eventHandlers := d_eventHandlers d;
        d_entityCreatedHandlers := d_entityCreatedHandlers d;
        d_entityDestroyedHandlers :=
          _addToHandlerToHandlers (d_entityDestroyedHandlers d) entityName h;
        d_entityUpdatedHandlers := d_entityUpdatedHandlers d |},
     Returned tt)
  end.

Definition onEntityUpdated (d : EntityDescription) (entityName : string)
    (h : handler (EntityRef * list string))
  : EntityDescription * outcome unit :=
  match assert (negb (bool_decide (entityName = "")))
               (NameMustBeProvided "entity updated") with
  | Thrown e => (d, Thrown e)
  | Returned _ =>
    ({| d_properties := d_properties d;
        d_eventHandlers := d_eventHandlers d;
        d_entityCreatedHandlers := d_entityCreatedHandlers d;
        d_entityDestroyedHandlers := d_entityDestroyedHandlers d;
        d_entityUpdatedHandlers :=
          _addToHandlerToHandlers (d_entityUpdatedHandlers d) entityName h |},
     Returned tt)
  end.

(** One loop of [_copyHandlers]: every list of the description's registry
    is rebuilt with each handler bound to [this]. *)
Definition copy_registry {A : Type} (this : loc)
    (registry : gmap string (list (handler A)))
  : gmap string (list (bound A)) :=
  fmap (M := gmap string)
       (fun handlers : list (handler A) =>
          List.map (fun h : handler A => bind h this) handlers)
       registry.

(** The constructor of [Entity], [this] being the address of the object
    under construction: the description's properties, the bag over them, a
    new guid, four empty registries, then [_copyHandlers]. *)
Definition Entity_new (this : loc) (uuid : string)
    (description : EntityDescription) (bag : gmap string value) : Entity :=
  {| properties :=
       <["guid" := VStr uuid]>
         (without_registries
            (Event.Object_assign
               (Event.Object_assign ∅ (d_properties description)) bag));
     _eventHandlers := copy_registry this (d_eventHandlers description);
     _entityCreatedHandlers :=
       copy_registry this (d_entityCreatedHandlers description);
     _entityDestroyedHandlers :=
       copy_registry this (d_entityDestroyedHandlers description);
     _entityUpdatedHandlers :=
       copy_registry this (d_entityUpdatedHandlers description) |}.

(** The heap. *)
Inductive object : Type :=
| Description (d : EntityDescription)
| Instance (e : Entity).

Definition heap : Type := gmap loc object.

Definition object_properties (o : object) : gmap string value :=
  match o with
  | Description d => d_properties d
  | Instance e => properties e
  end.

Definition set_properties (p : gmap string value) (o : object) : object :=
  match o with
  | Description d =>
    Description
      {| d_properties := p;
         d_eventHandlers := d_eventHandlers d;
         d_entityCreatedHandlers := d_entityCreatedHandlers d;
         d_entityDestroyedHandlers := d_entityDestroyedHandlers d;
         d_entityUpdatedHandlers := d_entityUpdatedHandlers d |}
  | Instance e =>
    Instance
      {| properties := p;
         _eventHandlers := _eventHandlers e;
         _entityCreatedHandlers := _entityCreatedHandlers e;
         _entityDestroyedHandlers := _entityDestroyedHandlers e;
         _entityUpdatedHandlers := _entityUpdatedHandlers e |}
  end.

(** [new EntityDescription(name, bag)] stored at a fresh address. *)
Definition alloc (o : object) (h : gmap loc object) : gmap loc object * loc :=
  let l := fresh (dom h) in (<[l := o]> h, l).

(** [description.entity(bag)]: [new Entity(this, bag)] at a fresh
    address.  Nothing is built when [template] is not a description. *)
Definition entity (h : gmap loc object) (template : loc) (uuid : string)
    (bag : gmap string value) : gmap loc object * option loc :=
  match h !! template with
  | Some (Description d) =>
    let this := fresh (dom h) in
    (<[this := Instance (Entity_new this uuid d bag)]> h, Some this)
  | _ => (h, None)
  end.

(** Calling a bound handler: its body runs on the properties of the
    receiver it was bound to. *)
Definition call {A : Type} (h : gmap loc object) (b : bound A) (arg : A)
  : gmap loc object :=
  match h !! receiver b with
  | Some o =>
    <[receiver b := set_properties (body b arg (object_properties o)) o]> h
  | None => h
  end.

Definition call_all {A : Type} (h : gmap loc object)
    (handlers : list (bound A)) (arg : A) : gmap loc object :=
  foldl (fun h' b => call h' b arg) h handlers.

(** [handleEvent] and its three siblings, on the entity at [this]. *)
Definition handleEvent (h : gmap loc object) (this : loc) (event : Event.t)
  : gmap loc object :=
  match h !! this with
  | Some (Instance e) =>
    match _eventHandlers e !! Event.name_text event with
    | Some handlers => call_all h handlers event
    | None => h
    end
  | _ => h
  end.




End Entities.

(** ** Plain objects used as dictionaries *)

(** The property names that every plain object inherits from
    [Object.prototype] ("constructor", "toString", ...).  A registry that
    is a plain object answers a lookup under such a name with the inherited
    value, which the embedding of the registries leaves out: the
    properties of registration and dispatch are stated for the other
    names.  The list belongs to the runtime. *)
Class ObjectPrototype := inherited : string -> bool.

(** The property names of [Object.prototype] in the 2015 edition of the
    language. *)
Definition es2015_Object : ObjectPrototype := fun key =>
  bool_decide (key ∈ ["constructor"; "hasOwnProperty"; "isPrototypeOf";
                      "propertyIsEnumerable"; "toString"; "valueOf";
                      "toLocaleString"; "__proto__";
                      "__defineGetter__"; "__defineSetter__";
                      "__lookupGetter__"; "__lookupSetter__"]).

(** The array indices among the property names: the decimal numerals
    without sign or leading zero of the integers from 0 to 2^32 - 2.  The
    properties of an object are enumerated with the array indices first,
    in ascending order, and the other names after them in the order in
    which the properties were created. *)
Definition digit (c : ascii) : option N :=
  let n := N_of_ascii c in
  if ((48 <=? n) && (n <=? 57))%N then Some (n - 48)%N else None.

Fixpoint digits_value (acc : N) (s : string) : option N :=
  match s with
  | EmptyString => Some acc
  | String c rest =>
    match digit c with
    | Some d => digits_value (10 * acc + d)%N rest
    | None => None
    end
  end.

Definition array_index (key : string) : option N :=
  match key with
  | EmptyString => None
  | String c rest =>
    if bool_decide (c = "0"%char) && negb (bool_decide (rest = EmptyString))
    then None
    else
      match digits_value 0 key with
      | Some n => if (n <=? 4294967294)%N then Some n else None
      | None => None
      end
  end.

(** ** General purpose utilities ([util.ts])

    The queues and the entity descriptions above call [assert] on a boolean
    they have just computed, with one of a handful of fixed messages: that
    use is the typed [assert] of the beginning of this file.  Here is the
    function as [util.ts] defines it, on a condition of any primitive type
    and with the message as a string, for the callers of [events.ts].
    Objects and arrays, which are always truthy and never missing, are not
    among the [value]s. *)
Module Util.

(** What the code modelled from here on throws. *)
Inductive exception : Type :=
| Error (message : string)
    (* [throw new Error(message)], from [assert] *)
| WriteTypeError (message : string)
    (* [throw TypeError(...)] of [BaseLogger._write], with the text it was
       asked to write *)
| ConversionTypeError
    (* the runtime's TypeError for an object that cannot be converted to a
       string *)
| CallTypeError
    (* the runtime's TypeError for the call of a method that the object
       does not have *).

(** [!!v]. *)
Definition truthy (v : value) : bool :=
  match v with
  | VUndefined | VNull => false
  | VBool b => b
  | VNum n => truthy_number n
  | VStr s => negb (bool_decide (s = ""))
  end.

(** [assert(condition, message)]: the error carries
    [message || "Assertion failed"]. *)
Definition assert (condition : value) (message : string)
  : exception + unit :=
  if truthy condition then inr tt
  else inl (Error (if bool_decide (message = "") then "Assertion failed"
                   else message)).

(** [missing(value)]. *)
Definition missing (v : value) : bool :=
  match v with
  | VUndefined | VNull => true
  | _ => false
  end.

End Util.

(** ** Building events ([events.ts])

    [Event.new] above is the constructor for a name that is a string.
    [eventFromObject] passes whatever [obj.name] holds, so the constructor
    is given here for a name of any primitive type.  A property map holds
    the own properties of a plain object. *)
Module Events.

(** [obj[key]] on a plain object, for a key that [Object.prototype] does
    not provide: [undefined] when the property is absent. *)
Definition get (obj : gmap string value) (key : string) : value :=
  default VUndefined (obj !! key).

(** [Object.assign(target, source)] on a target that inherits from
    [Object.prototype]: every own property of the source is assigned to the
    target.  For a property named [__proto__] the assignment reaches the
    setter that [Object.prototype] provides, which makes no property of
    the target (and does nothing else when the value is a primitive other
    than [null]); every other property is written over the target's. *)
Definition assign (target source : gmap string value) : gmap string value :=
  Event.Object_assign target (delete "__proto__" source).

(** [new Event(name, properties)]. *)
Definition Event_new (uuid : string) (name : value)
    (properties : gmap string value) : gmap string value :=
  assign
    (<["time" := VUndefined]>
       (<["guid" := VStr uuid]> (<["name" := name]> ∅)))
    properties.

(** The text of [`${obj}`] for a plain object of primitive properties.
    The conversion calls the object's [toString]; an own property of that
    name shadows the inherited method with something that cannot be called,
    [valueOf] gives back the object itself, and the runtime throws. *)
Definition template_text (obj : gmap string value)
  : Util.exception + string :=
  if bool_decide ("toString" ∈ dom obj) then inl Util.ConversionTypeError
  else inr "[object Object]".

(** The double quote. *)
Definition quote : string := String "034"%char EmptyString.

(** [Event.eventFromObject(obj)].  The message is an argument of [assert]:
    it is built, and [obj] converted to a string, before the name is
    looked at.  [uuid] is what [uuidv4()] returns when the constructor
    runs. *)
Definition eventFromObject (uuid : string) (obj : gmap string value)
  : Util.exception + gmap string value :=
  match template_text obj with
  | inl e => inl e
  | inr text =>
    match Util.assert (get obj "name")
            (text +:+ " does not contain a " +:+ quote +:+ "name" +:+ quote
             +:+ " property.") with
    | inl e => inl e
    | inr _ =>
      let evt := Event_new uuid (get obj "name") ∅ in
      inr (assign evt obj)
    end
  end.

(** [event.at(time)] on an event as the queues see it: the event comes back
    with its time set, or nothing is changed and an error is thrown. *)
Definition at_ (ev : Event.t) (time : number) : Util.exception + Event.t :=
  match Util.assert (VBool (isInteger time))
          "Event times must be integers." with
  | inl e => inl e
  | inr _ => inr (Event.set_time time ev)
  end.

(** The names the framework reserves for its own events. *)
Definition SIMULATION_STATE_CHANGE_EVENT : string :=
  "scarab.simulation.state_change".
Definition SIMULATION_TIME_ADVANCE_EVENT : string :=
  "scarab.simulation.time-advance".
Definition ENTITY_CREATED_EVENT : string := "scarab.entity.created".
Definition ENTITY_UPDATED_EVENT : string := "scarab.entity.updated".
Definition ENTITY_DESTROYED_EVENT : string := "scarab.entity.destroyed".

(** [new SimulationTimeAdvance(previousTime)] as the queues and the
    entities see it; [previousTime] defaults to 0. *)
Definition SimulationTimeAdvance (uuid : string)
    (previousTime : option number) : Event.t :=
  {| Event.name := Some SIMULATION_TIME_ADVANCE_EVENT;
     Event.time := None;
     Event.fields :=
       <["previousTime" := VNum (default (of_Z 0) previousTime)]>
         {["guid" := VStr uuid]} |}.

End Events.

(** ** Loggers ([logging.ts])

    [BaseLogger] keeps a [Set] of enabled topics and leaves [_write] to its
    subclasses; [log] and the topic methods are written once, against the
    logger's [_write]. *)
Module Logging.

(** [key in s] for a [Set] object [s].  JavaScript's [in] asks whether its
    left operand names a property of the object on its right.  A [Set]
    keeps its elements in an internal slot, not as properties: the
    properties of a [Set] object are the ones it inherits ("has", "add",
    "size", "constructor", ...), a list that belongs to the runtime.  What
    [key in s] answers therefore depends on the runtime and on [key], and
    not on the elements of [s]. *)
Class SetObject := Set_in : string -> bool.

(** The property names of [Set.prototype] and [Object.prototype] in the
    2015 edition of the language. *)
Definition es2015_Set : SetObject := fun key =>
  bool_decide (key ∈ ["constructor"; "has"; "add"; "delete"; "clear";
                      "entries"; "forEach"; "size"; "values"; "keys";
                      "hasOwnProperty"; "isPrototypeOf";
                      "propertyIsEnumerable"; "toString"; "valueOf";
                      "toLocaleString"; "__proto__";
                      "__defineGetter__"; "__defineSetter__";
                      "__lookupGetter__"; "__lookupSetter__"]).

(** What a logger class provides: its topic set, and [_write]. *)
Class Logger (L : Type) : Type := {
  topics : L -> gset string;
  with_topics : L -> gset string -> L;
  _write : L -> string -> Util.exception + L
}.

(** The loop of the constructor:
    [for (const t of topics) this._topics.add(t)]. *)
Definition initial_topics (topics : list string) : gset string :=
  foldl (fun s t => {[t]} ∪ s) ∅ topics.

Section Methods.
Context {L : Type} `{Logger L}.

(** [isLogging]: [topic in this._topics]. *)
Definition isLogging `{SetObject} (l : L) (topic : string) : bool :=
  Set_in topic.

Definition addTopic (l : L) (topic : string) : L :=
  with_topics l ({[topic]} ∪ topics l).

Definition removeTopic (l : L) (topic : string) : L :=
  with_topics l (topics l ∖ {[topic]}).

(** [log]: [_write] when [this._topics.has(topic)]. *)
Definition log (l : L) (topic message : string) : Util.exception + L :=
  if bool_decide (topic ∈ topics l) then _write l message else inr l.

End Methods.

(** [BaseLogger]: [_write] throws. *)
Module BaseLogger.

Record t : Type := mk { _topics : gset string }.

Definition new (topics : list string) : t :=
  {| _topics := initial_topics topics |}.

#[global] Instance logger : Logger t := {|
  topics := _topics;
  with_topics := fun l s => {| _topics := s |};
  _write := fun l message => inl (Util.WriteTypeError message)
|}.

End BaseLogger.

(** [ConsoleLogger]: [console] is what the logger has printed so far. *)
Module ConsoleLogger.

Record t : Type := mk { _topics : gset string; console : list string }.

Definition new (topics : list string) : t :=
  {| _topics := initial_topics topics; console := [] |}.

#[global] Instance logger : Logger t := {|
  topics := _topics;
  with_topics := fun l s => {| _topics := s; console := console l |};
  _write := fun l message =>
    inr {| _topics := _topics l; console := console l ++ [message] |}
|}.

End ConsoleLogger.

(** [s.includes(value)]: [value] occurs in [s], at the beginning or
    further on. *)
Fixpoint includes (s value : string) : bool :=
  String.prefix value s
  || match s with
     | EmptyString => false
     | String _ rest => includes rest value
     end.

(** [StringLogger]. *)
Module StringLogger.

Record t : Type := mk { _topics : gset string; _buffer : list string }.

Definition new (topics : list string) : t :=
  {| _topics := initial_topics topics; _buffer := [] |}.

#[global] Instance logger : Logger t := {|
  topics := _topics;
  with_topics := fun l s => {| _topics := s; _buffer := _buffer l |};
  _write := fun l message =>
    inr {| _topics := _topics l; _buffer := _buffer l ++ [message] |}
|}.

(** [strings]: a copy of the buffer. *)
Definition strings (l : t) : list string := _buffer l.

Definition clear (l : t) : t := {| _topics := _topics l; _buffer := [] |}.

(** The loop of [contains].  The comparison [s === value] sits in the
    [else] of the substring test, and both inside [if (checkSubstr)]. *)
Fixpoint contains_from (buffer : list string) (value : string)
    (checkSubstr : bool) : bool :=
  match buffer with
  | [] => false
  | s :: rest =>
    if checkSubstr then
      if includes s value then true
      else if bool_decide (s = value) then true
      else contains_from rest value checkSubstr
    else contains_from rest value checkSubstr
  end.

(** [contains(value, checkSubstr)]; [checkSubstr] defaults to [true]. *)
Definition contains (l : t) (value : string) (checkSubstr : option bool)
  : bool :=
  contains_from (_buffer l) value (default true checkSubstr).

End StringLogger.

End Logging.

(** ** The simulation ([simulation.ts], class [EntitySimulation])

    The simulation keeps its entities in a dictionary under their guid.  An
    entity is an object of the heap; the simulation reads its [guid], a
    string by the declaration of class [Entity]. *)
Module Simulation.

Record Entity : Type := mkEntity {
  guid : string;
  address : Entities.loc
}.

Record EntitySimulation : Type := mk {
  name : string;
  timeStepped : bool;
  entities : gmap string Entity;
  eventQueue : PriorityQueue.t
}.

(** The constructor; both parameters have defaults. *)
Definition new (name : option string) (timeStepped : option bool)
  : EntitySimulation :=
  {| name := default "unknown-simulation" name;
     timeStepped := default true timeStepped;
     entities := ∅;
     eventQueue := (StrictPriorityQueue.new []).1 |}.

(** [addEntity]: [this.entities[entity.guid] = entity].  The dictionary is
    a plain object: an assignment under the key [__proto__] reaches the
    setter that [Object.prototype] provides and gives the dictionary a new
    prototype, not a new entry. *)
Definition addEntity (sim : EntitySimulation) (entity : Entity)
  : EntitySimulation :=
  {| name := name sim;
     timeStepped := timeStepped sim;
     entities :=
       if bool_decide (guid entity = "__proto__") then entities sim
       else <[guid entity := entity]> (entities sim);
     eventQueue := eventQueue sim |}.

(** [destroyEntity]: the argument is an entity ([instanceof Entity]) or a
    guid. *)
Definition destroyEntity (sim : EntitySimulation)
    (entityOrGUID : string + Entity) : EntitySimulation :=
  {| name := name sim;
     timeStepped := timeStepped sim;
     entities :=
       match entityOrGUID with
       | inr entity => delete (guid entity) (entities sim)
       | inl g => delete g (entities sim)
       end;
     eventQueue := eventQueue sim |}.

(** [numberEntities]: [Object.keys(this.entities).length]. *)
Definition numberEntities (sim : EntitySimulation) : nat :=
  size (entities sim).

(** [sendEvent] has an empty body. *)
Definition sendEvent (sim : EntitySimulation) (event : Event.t)
  : EntitySimulation := sim.

End Simulation.

(** ** Handler lists ([simulation.ts], class [EventHandlerList])

    The handlers are kept in a plain object under the guid of their
    entity: [_handlers] lists its properties in the order in which
    [Object.values] enumerates them.  A handler acts on a world [W] --
    whatever it reaches through the object it was bound to -- and may
    throw an [E] after it has acted; the handlers are taken not to add to
    or remove from the list that is calling them. *)
Module EventHandlerList.

Section Handlers.
Context {W E : Type}.
Context `{ObjectPrototype}.

(** What a call of a handler leaves of the world, and what it threw, if it
    threw. *)
Definition handler : Type := Event.t -> W -> W * option E.

Record t : Type := mk {
  eventName : string;
  _handlers : list (string * list handler)
}.

(** The constructor. *)
Definition new (eventName : string) : t :=
  {| eventName := eventName; _handlers := [] |}.

(** The property of the dictionary under [key], if it has one of its
    own. *)
Fixpoint own (entries : list (string * list handler)) (key : string)
  : option (list handler) :=
  match entries with
  | [] => None
  | (k, handlers) :: rest =>
    if decide (k = key) then Some handlers else own rest key
  end.

(** [handlers.push(h)] on the array that the dictionary holds under
    [key]. *)
Fixpoint push (entries : list (string * list handler)) (key : string)
    (h : handler) : list (string * list handler) :=
  match entries with
  | [] => []
  | (k, handlers) :: rest =>
    if decide (k = key) then (k, handlers ++ [h]) :: rest
    else (k, handlers) :: push rest key h
  end.

(** A new property whose name is the array index [n]: it is enumerated
    after the array indices below [n] and before everything else. *)
Fixpoint create_index (n : N) (key : string) (handlers : list handler)
    (entries : list (string * list handler)) : list (string * list handler) :=
  match entries with
  | [] => [(key, handlers)]
  | (k, hs) :: rest =>
    match array_index k with
    | Some m =>
      if (m <? n)%N then (k, hs) :: create_index n key handlers rest
      else (key, handlers) :: entries
    | None => (key, handlers) :: entries
    end
  end.

(** [dict[key] = handlers] for a key that the dictionary does not have. *)
Definition create (key : string) (handlers : list handler)
    (entries : list (string * list handler)) : list (string * list handler) :=
  match array_index key with
  | Some n => create_index n key handlers entries
  | None => entries ++ [(key, handlers)]
  end.

(** [addHandler].  The lookup [this._handlers[entityGuid]] also finds what
    the dictionary inherits: under such a name it gives an object that is
    no array, and [push] cannot be called. *)
Definition addHandler (l : t) (entityGuid : string) (h : handler)
  : Util.exception + t :=
  match own (_handlers l) entityGuid with
  | Some _ =>
    inr {| eventName := eventName l;
           _handlers := push (_handlers l) entityGuid h |}
  | None =>
    if inherited entityGuid then inl Util.CallTypeError
    else inr {| eventName := eventName l;
                _handlers := create entityGuid [h] (_handlers l) |}
  end.

(** [removeHandlers]: [delete this._handlers[entityGuid]]. *)
Definition removeHandlers (l : t) (entityGuid : string) : t :=
  {| eventName := eventName l;
     _handlers :=
       filter (fun entry => entry.1 <> entityGuid) (_handlers l) |}.

(** One turn of the inner loop of [invoke]: the handler is called; what it
    throws is caught and reported on the console, here the list of the
    reports, each with the name of the list and the thing thrown (which
    is taken to have a string form). *)
Definition call_caught (name : string) (event : Event.t)
    (state : W * list (string * E)) (h : handler) : W * list (string * E) :=
  match h event state.1 with
  | (w, None) => (w, state.2)
  | (w, Some err) => (w, state.2 ++ [(name, err)])
  end.

(** [invoke]: the world and the console after the two loops. *)
Definition invoke (l : t) (event : Event.t) (w : W)
    (console : list (string * E)) : W * list (string * E) :=
  foldl (fun state entry =>
           foldl (call_caught (eventName l) event) state entry.2)
        (w, console) (_handlers l).

End Handlers.

Arguments handler : clear implicits.
Arguments t : clear implicits.

End EventHandlerList.

(** * Specification vocabulary *)

Section Vocabulary.
Context `{RegExp}.

(** The engine accepts the empty pattern and finds it in every text: the
    catch-all that [setPriorities] pushes. *)
Definition empty_pattern_matches : Prop :=
  forall text : string, RegExp_test "" text = Some true.


(** The priority-bucket rank of a name: the position of the first declared
    pattern that matches it, and the number of declared patterns (the
    position of the catch-all) when none does. *)
Fixpoint rank (text : string) (patterns : list string) : nat :=
  match patterns with
  | [] => 0
  | p :: rest =>
    match RegExp_test p text with
    | Some true => 0
    | _ => S (rank text rest)
    end
  end.

End Vocabulary.

(** The events of a bucket queue in the order [next] hands them out: bucket
    after bucket along the priority list, a pattern listed twice counting
    at its first position only. *)
Fixpoint drain_order (queues : gmap string (list Event.t))
    (names : list string) : list Event.t :=
  match names with
  | [] => []
  | n :: rest => default [] (queues !! n) ++ drain_order (delete n queues) rest
  end.

Definition pq_contents (q : PriorityQueue.t) : list Event.t :=
  drain_order (PriorityQueue._eventQueues q) (PriorityQueue._priorityList q).

(** What construction establishes and [add]/[next] keep of a bucket queue
    built from the caller's list [declared]. *)
Record pq_inv `{RegExp} (declared : list string) (q : PriorityQueue.t)
  : Prop := mk_pq_inv {
  pq_inv_list : PriorityQueue._priorityList q = declared ++ [""];
  pq_inv_buckets :
    forall p, p ∈ PriorityQueue._priorityList q ->
              is_Some (PriorityQueue._eventQueues q !! p);
  pq_inv_home :
    forall p l e, PriorityQueue._eventQueues q !! p = Some l -> e ∈ l ->
      PriorityQueue.find_pattern (Event.name_text e)
        (PriorityQueue._priorityList q) = Returned (Some p);
  pq_inv_length : PriorityQueue._length q = length (pq_contents q)
}.

(** ** Call sequences on a bucket queue *)

(** The states a bucket queue built from [declared] goes through under
    [add] and [next].  ([setPriorities] after construction is left out: the
    strict queue refuses it, and the source warns that calling it directly
    "may cause errors or unexpected behavior".) *)
Inductive pq_reachable `{RegExp} (declared : list string)
  : PriorityQueue.t -> Prop :=
| pq_reach_new :
    pq_reachable declared (PriorityQueue.new declared)
| pq_reach_add q event :
    pq_reachable declared q ->
    pq_reachable declared (PriorityQueue.add q event).1
| pq_reach_next q :
    pq_reachable declared q ->
    pq_reachable declared (PriorityQueue.next q).1.

(** One call on a bucket queue, of the strict class or of the base class. *)
Inductive pq_call : Type :=
| PqAdd (event : Event.t)
| PqNext
| PqSetPriorities (priorityList : list string).

(** What a call leaves and produces; the event it handed out, if any. *)
Definition pq_do `{RegExp} (strict : bool) (q : PriorityQueue.t)
    (c : pq_call) : PriorityQueue.t * outcome (option Event.t) :=
  match c with
  | PqAdd event =>
    let '(q', r) := if strict then StrictPriorityQueue.add q event
                    else PriorityQueue.add q event in
    (q', match r with Returned _ => Returned None | Thrown e => Thrown e end)
  | PqNext => PriorityQueue.next q
  | PqSetPriorities l =>
    let '(q', r) := if strict then StrictPriorityQueue.setPriorities q l
                    else (PriorityQueue.setPriorities q l, Returned tt) in
    (q', match r with Returned _ => Returned None | Thrown e => Thrown e end)
  end.

(** A call counts as a successful [add], or as a [next] that returned an
    event. *)
Definition counts_as_add (c : pq_call) (r : outcome (option Event.t)) : nat :=
  match c, r with
  | PqAdd _, Returned _ => 1
  | _, _ => 0
  end.

Definition counts_as_event (r : outcome (option Event.t)) : nat :=
  match r with
  | Returned (Some _) => 1
  | _ => 0
  end.

(** The state after a sequence of calls, with the number of successful
    adds and the number of events handed out. *)
Fixpoint pq_run `{RegExp} (strict : bool) (q : PriorityQueue.t)
    (calls : list pq_call) : PriorityQueue.t * nat * nat :=
  match calls with
  | [] => (q, 0%nat, 0%nat)
  | c :: rest =>
    let '(q', r) := pq_do strict q c in
    let '(q'', adds, events) := pq_run strict q' rest in
    (q'', (counts_as_add c r + adds)%nat, (counts_as_event r + events)%nat)
  end.

(** ** The time-indexed queue: contents and invariants *)

(** The bucket queue [add] works on: the one at the chosen time, or a new
    one. *)
Definition queue_at (q : EventQueue.t) (t : number) : PriorityQueue.t :=
  match EventQueue._timeQueues q !! t with
  | Some queue => queue
  | None => PriorityQueue.new (EventQueue._priorityList q)
  end.

(** The events queued for tick [z], and for the [n] ticks from [from] on, in
    the order they will be handed out. *)
Definition slot (timeQueues : gmap number PriorityQueue.t) (z : Z)
  : list Event.t :=
  match timeQueues !! of_Z z with
  | Some pq => pq_contents pq
  | None => []
  end.

Fixpoint slots (timeQueues : gmap number PriorityQueue.t) (from : Z) (n : nat)
  : list Event.t :=
  match n with
  | O => []
  | S n' => slot timeQueues from ++ slots timeQueues (from + 1) n'
  end.

Definition current_contents (q : EventQueue.t) : list Event.t :=
  match EventQueue._currentQueue q with
  | Some pq => pq_contents pq
  | None => []
  end.

(** The rest of the bucket queue being drained, then the [horizon] ticks
    after the current time. *)
Definition eq_contents (horizon : nat) (q : EventQueue.t) : list Event.t :=
  current_contents q
  ++ slots (EventQueue._timeQueues q) (EventQueue._currentTime q + 1) horizon.

(** Every bucket queue the event queue holds was built from [declared],
    satisfies the bucket-queue invariant and is not empty. *)
Record eq_wf `{RegExp} (declared : list string) (q : EventQueue.t)
  : Prop := mk_eq_wf {
  eq_wf_list : EventQueue._priorityList q = declared;
  eq_wf_queues :
    forall k pq, EventQueue._timeQueues q !! k = Some pq ->
                 pq_inv declared pq /\ pq_contents pq <> [];
  eq_wf_current :
    forall pq, EventQueue._currentQueue q = Some pq ->
               pq_inv declared pq /\ pq_contents pq <> []
}.

(** The invariant of a queue whose events were all scheduled at an integer
    time after the current time of their [add]: every occupied time is an
    integer within [horizon] ticks after the current time, an event sits at
    the time it carries, and [_length] counts the events queued. *)
Record eq_inv `{RegExp} (declared : list string) (horizon : nat)
    (q : EventQueue.t) : Prop := mk_eq_inv {
  eq_inv_wf : eq_wf declared q;
  eq_inv_horizon :
    forall k pq, EventQueue._timeQueues q !! k = Some pq ->
      exists z, k = of_Z z
                /\ EventQueue._currentTime q < z
                   <= EventQueue._currentTime q + Z.of_nat horizon;
  eq_inv_times :
    forall z pq, EventQueue._timeQueues q !! of_Z z = Some pq ->
      Forall (fun e => Event.time e = Some (of_Z z)) (pq_contents pq);
  eq_inv_current_times :
    forall pq, EventQueue._currentQueue q = Some pq ->
      Forall (fun e => Event.time e = Some (of_Z (EventQueue._currentTime q)))
             (pq_contents pq);
  eq_inv_count : EventQueue._length q = length (eq_contents horizon q)
}.

(** JavaScript's [<] on numbers, and on the times of two events. *)
Definition number_lt (a b : number) : Prop :=
  match a, b with
  | Finite p, Finite q => Qclt p q
  | NegInfinity, Finite _ | NegInfinity, PosInfinity
  | Finite _, PosInfinity => True
  | _, _ => False
  end.

Definition time_lt (a b : option number) : Prop :=
  match a, b with
  | Some x, Some y => number_lt x y
  | _, _ => False
  end.

Section Order.
Context `{RegExp}.
Variable declared : list string.

Definition event_rank (e : Event.t) : nat :=
  rank (Event.name_text e) declared.

(** [e1] goes out strictly before [e2] by time, then by rank. *)
Definition earlier (e1 e2 : Event.t) : Prop :=
  time_lt (Event.time e1) (Event.time e2)
  \/ (Event.time e1 = Event.time e2 /\ (event_rank e1 < event_rank e2)%nat).

(** [e1] goes out before [e2] or ties with it. *)
Definition no_later (e1 e2 : Event.t) : Prop :=
  earlier e1 e2
  \/ (Event.time e1 = Event.time e2 /\ event_rank e1 = event_rank e2).


End Order.


(** [n] calls of [next], each with [fuel] for its loop: the events they
    returned and the queue they leave, when each of them returned an
    event. *)
Fixpoint drain (fuel : nat) (n : nat) (q : EventQueue.t)
  : option (list Event.t * EventQueue.t) :=
  match n with
  | O => Some ([], q)
  | S n' =>
    match EventQueue.next fuel q with
    | Some (q', Returned (Some e)) =>
      match drain fuel n' q' with
      | Some (l, q'') => Some (e :: l, q'')
      | None => None
      end
    | _ => None
    end
  end.

(** The queue as it is when it has just been constructed ([c = 0]) or
    drained at time [c]. *)
Definition empty_at (declared : list string) (c : Z) : EventQueue.t :=
  {| EventQueue._priorityList := declared;
     EventQueue._timeQueues := ∅;
     EventQueue._length := 0;
     EventQueue._currentQueue := None;
     EventQueue._currentTime := c;
     EventQueue._nextTime := None |}.

(** The states an event queue goes through when every [add] is at an
    integer time after the current time (what the strict class checks
    before it adds) and returns normally, and every [next] comes back. *)
Inductive eq_reachable `{RegExp} (declared : list string)
  : EventQueue.t -> Prop :=
| eq_reach_new : eq_reachable declared (EventQueue.new declared)
| eq_reach_add q event time q' event' :
    eq_reachable declared q ->
    isInteger (EventQueue.timeToUse q event time) = true ->
    gt_Z (EventQueue.timeToUse q event time) (EventQueue._currentTime q)
    = true ->
    EventQueue.add q event time = (q', event', Returned tt) ->
    eq_reachable declared q'
| eq_reach_next q fuel q' r :
    eq_reachable declared q ->
    EventQueue.next fuel q = Some (q', r) ->
    eq_reachable declared q'.

(** Events numbered from [n] on in the order of the list: the insertion
    sequence. *)
Fixpoint numbered (n : nat) (events : list Event.t) : list (nat * Event.t) :=
  match events with
  | [] => []
  | e :: rest => (n, e) :: numbered (S n) rest
  end.

(** One call on an event queue, of the strict class or of the base class;
    [EqNext fuel] is a call of [next] whose loop ends within [fuel]
    iterations. *)
Inductive eq_call : Type :=
| EqAdd (event : Event.t) (time : option number)
| EqNext (fuel : nat).

Definition eq_do `{RegExp} (strict : bool) (q : EventQueue.t) (c : eq_call)
  : option (EventQueue.t * outcome (option Event.t)) :=
  match c with
  | EqAdd event time =>
    let '(q', _, r) := if strict then StrictEventQueue.add q event time
                       else EventQueue.add q event time in
    Some (q', match r with
              | Returned _ => Returned None
              | Thrown e => Thrown e
              end)
  | EqNext fuel => EventQueue.next fuel q
  end.

Definition eq_counts_as_add (c : eq_call) (r : outcome (option Event.t))
  : nat :=
  match c, r with
  | EqAdd _ _, Returned _ => 1
  | _, _ => 0
  end.

(** The state after a sequence of calls that all came back, with the
    number of successful adds and the number of events handed out. *)
Fixpoint eq_run `{RegExp} (strict : bool) (q : EventQueue.t)
    (calls : list eq_call) : option (EventQueue.t * nat * nat) :=
  match calls with
  | [] => Some (q, 0%nat, 0%nat)
  | c :: rest =>
    match eq_do strict q c with
    | None => None
    | Some (q', r) =>
      match eq_run strict q' rest with
      | None => None
      | Some (q'', adds, events) =>
        Some (q'', (eq_counts_as_add c r + adds)%nat,
              (counts_as_event r + events)%nat)
      end
    end
  end.

(** The resolution of the scheduling time as the specification words it:
    the argument if it is given, else the event's time if it is set, else
    the tick after the current time -- "given" and "set" meaning present,
    whatever the value. *)
Definition spec_timeToUse (q : EventQueue.t) (event : Event.t)
    (time : option number) : number :=
  match time with
  | Some t => t
  | None =>
    match Event.time event with
    | Some t => t
    | None => of_Z (EventQueue._currentTime q + 1)
    end
  end.

(** ** Concrete inputs

    The scenario of the repository's own queue test -- patterns [a], [b],
    [c]; "b" and "a" added without a time, "c" added for time 3 -- and of
    its entity test -- a template with [prop = 1] whose handler for "event"
    copies the event's [prop]. *)
Definition example_declared : list string := ["a"; "b"; "c"].

Definition example_event (n : string) : Event.t := Event.mk (Some n) None ∅.


Definition example_queue_1 : EventQueue.t :=
  (@EventQueue.add miniRegExp (empty_at example_declared 0)
     (example_event "b") None).1.1.

Definition example_queue_2 : EventQueue.t :=
  (@EventQueue.add miniRegExp example_queue_1 (example_event "a") None).1.1.

Definition example_queue_3 : EventQueue.t :=
  (@EventQueue.add miniRegExp example_queue_2
     (example_event "c") (Some (of_Z 3))).1.1.


Definition example_handler : Entities.handler Event.t :=
  fun event this =>
    <["prop" := default VUndefined (Event.fields event !! "prop")]> this.

Definition example_description : Entities.EntityDescription :=
  (Entities.onEvent
     (Entities.EntityDescription_new "guid-0" "entity"
        {["prop" := VNum (of_Z 1)]})
     "event" example_handler).1.

Definition example_heap : gmap Entities.loc Entities.object :=
  {[1%positive := Entities.Description example_description]}.

Definition example_run_calls : list eq_call :=
  [EqAdd (example_event "b") None; EqAdd (Event.mk None None ∅) None;
   EqNext 1; EqNext 0].

Definition example_handled_event : Event.t :=
  Event.mk (Some "event") None {["prop" := VNum (of_Z 3)]}.

(** Helpers to replay the bucket-queue tests: strict adds of events given
    by their names, then the names that [n] calls of [next] return ([None]
    for a call that returns no event). *)
Definition add_names `{RegExp} (q : PriorityQueue.t) (names : list string)
  : PriorityQueue.t :=
  foldl (fun q' n => (StrictPriorityQueue.add q' (example_event n)).1)
        q names.

Fixpoint next_names (n : nat) (q : PriorityQueue.t) : list (option string) :=
  match n with
  | O => []
  | S n' =>
    match PriorityQueue.next q with
    | (q', Returned (Some e)) => Event.name e :: next_names n' q'
    | (q', _) => None :: next_names n' q'
    end
  end.

(** ** Vocabulary of the further properties *)

(** Adds of [events] one after the other, of the strict class or of the
    base class: the queue they leave when each of them returned. *)
Fixpoint pq_adds `{RegExp} (strict : bool) (q : PriorityQueue.t)
    (events : list Event.t) : option PriorityQueue.t :=
  match events with
  | [] => Some q
  | e :: rest =>
    match (if strict then StrictPriorityQueue.add q e
           else PriorityQueue.add q e) with
    | (q', Returned _) => pq_adds strict q' rest
    | (_, Thrown _) => None
    end
  end.

(** [n] calls of [next] on a bucket queue: the events they returned and
    the queue they leave, when each of them returned an event. *)
Fixpoint pq_drain (n : nat) (q : PriorityQueue.t)
  : option (list Event.t * PriorityQueue.t) :=
  match n with
  | O => Some ([], q)
  | S n' =>
    match PriorityQueue.next q with
    | (q', Returned (Some e)) =>
      match pq_drain n' q' with
      | Some (l, q'') => Some (e :: l, q'')
      | None => None
      end
    | _ => None
    end
  end.

(** The order of the drain of a bucket queue on events tagged with their
    insertion sequence number: rank, then sequence. *)
Definition rank_before `{RegExp} (declared : list string)
    (x y : nat * Event.t) : Prop :=
  (event_rank declared x.2 < event_rank declared y.2)%nat
  \/ (event_rank declared x.2 = event_rank declared y.2
      /\ (x.1 < y.1)%nat).

(** A sequence of calls on an event queue, of the strict class or of the
    base class: the queue the calls leave, the events the successful adds
    put in (each as its [add] left it, the time written back) and the
    events the calls of [next] handed out, both in the order of the calls,
    when all the calls came back. *)
Fixpoint eq_history `{RegExp} (strict : bool) (q : EventQueue.t)
    (calls : list eq_call)
  : option (EventQueue.t * list Event.t * list Event.t) :=
  match calls with
  | [] => Some (q, [], [])
  | EqAdd event time :: rest =>
    let '(q', event', r) :=
      if strict then StrictEventQueue.add q event time
      else EventQueue.add q event time in
    match eq_history strict q' rest with
    | None => None
    | Some (q'', added, out) =>
      Some (q'', match r with
                 | Returned _ => event' :: added
                 | Thrown _ => added
                 end, out)
    end
  | EqNext fuel :: rest =>
    match EventQueue.next fuel q with
    | None => None
    | Some (q', r) =>
      match eq_history strict q' rest with
      | None => None
      | Some (q'', added, out) =>
        Some (q'', added, match r with
                          | Returned (Some e) => e :: out
                          | _ => out
                          end)
      end
    end
  end.


(** One call on a [StringLogger], and a sequence of calls. *)
Inductive logger_call : Type :=
| LogCall (topic message : string)
| AddTopic (topic : string)
| RemoveTopic (topic : string)
| Clear.

(** ([_write] of a [StringLogger] does not throw.) *)
Definition logger_do (l : Logging.StringLogger.t) (c : logger_call)
  : Logging.StringLogger.t :=
  match c with
  | LogCall topic message =>
    match Logging.log l topic message with
    | inr l' => l'
    | inl _ => l
    end
  | AddTopic topic => Logging.addTopic l topic
  | RemoveTopic topic => Logging.removeTopic l topic
  | Clear => Logging.StringLogger.clear l
  end.

Definition logger_run (l : Logging.StringLogger.t) (calls : list logger_call)
  : Logging.StringLogger.t :=
  foldl logger_do l calls.

(** Whether a topic is enabled after a sequence of calls, given latest call
    first, on a logger constructed with the topics [initial]: the latest
    call about the topic decides, and the constructor's list when no call
    was about it. *)
Fixpoint enabled (initial : list string) (latest_first : list logger_call)
    (topic : string) : bool :=
  match latest_first with
  | [] => bool_decide (topic ∈ initial)
  | AddTopic t :: older =>
    if decide (t = topic) then true else enabled initial older topic
  | RemoveTopic t :: older =>
    if decide (t = topic) then false else enabled initial older topic
  | _ :: older => enabled initial older topic
  end.

(** The messages that were logged, since the latest [clear], on a topic
    that was enabled at the time of the call; oldest first. *)
Fixpoint logged (initial : list string) (latest_first : list logger_call)
  : list string :=
  match latest_first with
  | [] => []
  | Clear :: _ => []
  | LogCall topic message :: older =>
    if enabled initial older topic then logged initial older ++ [message]
    else logged initial older
  | _ :: older => logged initial older
  end.

(** One call on a simulation that adds or destroys an entity, and a
    sequence of calls. *)
Inductive sim_call : Type :=
| AddEntity (entity : Simulation.Entity)
| DestroyEntity (entityOrGUID : string + Simulation.Entity).

Definition sim_do (sim : Simulation.EntitySimulation) (c : sim_call)
  : Simulation.EntitySimulation :=
  match c with
  | AddEntity entity => Simulation.addEntity sim entity
  | DestroyEntity entityOrGUID => Simulation.destroyEntity sim entityOrGUID
  end.

Definition sim_run (sim : Simulation.EntitySimulation)
    (calls : list sim_call) : Simulation.EntitySimulation :=
  foldl sim_do sim calls.

(** The guid a call is about. *)
Definition call_guid (c : sim_call) : string :=
  match c with
  | AddEntity entity => Simulation.guid entity
  | DestroyEntity (inl g) => g
  | DestroyEntity (inr entity) => Simulation.guid entity
  end.

(** The entity of the latest call about a guid, given latest call first,
    when that call added it; none when that call destroyed it or when no
    call was about the guid. *)
Fixpoint latest_added (latest_first : list sim_call) (g : string)
  : option Simulation.Entity :=
  match latest_first with
  | [] => None
  | c :: older =>
    if decide (call_guid c = g) then
      match c with
      | AddEntity entity => Some entity
      | DestroyEntity _ => None
      end
    else latest_added older g
  end.

(** The entity registered under a guid after a sequence of calls: the
    latest added one, and none under [__proto__], which is no key of a
    dictionary. *)
Definition registered (latest_first : list sim_call) (g : string)
  : option Simulation.Entity :=
  if decide (g = "__proto__") then None else latest_added latest_first g.

(** One call that changes a handler list, and a sequence of calls; an
    [addHandler] that throws leaves the list as it was. *)
Inductive hl_call (W E : Type) : Type :=
| HlAdd (entityGuid : string) (h : EventHandlerList.handler W E)
| HlRemove (entityGuid : string).
Arguments HlAdd {W E} entityGuid h.
Arguments HlRemove {W E} entityGuid.

Definition hl_do {W E : Type} `{ObjectPrototype}
    (l : EventHandlerList.t W E) (c : hl_call W E)
  : EventHandlerList.t W E :=
  match c with
  | HlAdd entityGuid h =>
    match EventHandlerList.addHandler l entityGuid h with
    | inr l' => l'
    | inl _ => l
    end
  | HlRemove entityGuid => EventHandlerList.removeHandlers l entityGuid
  end.

Definition hl_run {W E : Type} `{ObjectPrototype}
    (l : EventHandlerList.t W E) (calls : list (hl_call W E))
  : EventHandlerList.t W E :=
  foldl hl_do l calls.



(** ** Further concrete inputs *)

(** Four events for the bucket queue of the example patterns, and the
    queue after their adds. *)
Definition example_bucket_events : list Event.t :=
  [example_event "b"; example_event "x"; example_event "a";
   example_event "b"].

Definition example_bucket_queue : PriorityQueue.t :=
  @add_names miniRegExp (PriorityQueue.new example_declared)
    ["b"; "x"; "a"; "b"].

(** A strict run in which adds and nexts alternate: "b" for the next tick
    and "c" for tick 3, a [next], then "a" for the next tick (tick 2 by
    then), an event without a name (refused), and three more [next]. *)
Definition example_interleaved_calls : list eq_call :=
  [EqAdd (example_event "b") None;
   EqAdd (example_event "c") (Some (of_Z 3));
   EqNext 5;
   EqAdd (example_event "a") None;
   EqAdd (Event.mk None None ∅) None;
   EqNext 5; EqNext 5; EqNext 5].

(** The example queue after one [next]. *)
Definition example_queue_4 : EventQueue.t :=
  match EventQueue.next 1 example_queue_3 with
  | Some (q, _) => q
  | None => example_queue_3
  end.



(** The object of the repository's test of [eventFromObject], and the event
    made from it. *)
Definition example_object : gmap string value :=
  {["name" := VStr "my.event"; "time" := VNum (of_Z 12);
    "otherprop" := VStr "xyz"]}.

Definition example_wrapped : gmap string value :=
  Events.assign (Events.Event_new "guid-1" (VStr "my.event") ∅)
    example_object.

(** The calls of the repository's logger test, up to its first checks and
    in full. *)
Definition example_logger_calls_1 : list logger_call :=
  [LogCall "1" "log_msg1"; LogCall "2" "log_msg2"].

Definition example_logger_calls_2 : list logger_call :=
  example_logger_calls_1
  ++ [Clear; RemoveTopic "1"; AddTopic "3";
      LogCall "1" "log_msg1"; LogCall "2" "log_msg2";
      LogCall "3" "log_msg3"].

(** The calls of the repository's simulation test. *)
Definition example_entity (n : positive) (g : string) : Simulation.Entity :=
  Simulation.mkEntity g n.

Definition example_sim_calls : list sim_call :=
  [AddEntity (example_entity 2 "guid-1");
   AddEntity (example_entity 3 "guid-2");
   DestroyEntity (inl "guid-2");
   AddEntity (example_entity 4 "guid-3");
   DestroyEntity (inl "guid-1");
   DestroyEntity (inr (example_entity 4 "guid-3"))].


(** A queue of the base class whose second pattern is no regular
    expression, after an add that threw for it and an add that
    returned. *)
Definition example_broken_queue : EventQueue.t :=
  (@EventQueue.add miniRegExp
     (@EventQueue.add miniRegExp (EventQueue.new ["a"; "*"])
        (example_event "x") (Some (of_Z 1))).1.1
     (example_event "a") (Some (of_Z 2))).1.1.

(** Handlers on a world that is the list of the marks made so far: one
    that makes its mark, and one that makes its mark and then throws it. *)
Definition example_marking (mark : string)
  : EventHandlerList.handler (list string) string :=
  fun _ w => (w ++ [mark], None).

Definition example_throwing (mark : string)
  : EventHandlerList.handler (list string) string :=
  fun _ w => (w ++ [mark], Some mark).

(** Handlers for four entities, two of them under guids that are array
    indices; the handlers of "b" are removed and one is added again, and
    one call is made under an inherited name. *)
Definition example_handler_calls : list (hl_call (list string) string) :=
  [HlAdd "b" (example_marking "b1");
   HlAdd "7" (example_marking "7");
   HlAdd "a" (example_throwing "a1");
   HlAdd "b" (example_marking "b2");
   HlAdd "a" (example_marking "a2");
   HlAdd "toString" (example_marking "never");
   HlRemove "b";
   HlAdd "10" (example_marking "10");
   HlAdd "b" (example_marking "b3")].

(** * Properties *)

(** ** Integer times *)

Lemma of_Z_inj (a b : Z) : of_Z a = of_Z b -> a = b.
Proof.
  unfold of_Z. intros Heq.
  assert (Hq : this (Q2Qc (inject_Z a)) = this (Q2Qc (inject_Z b)))
    by congruence.
  simpl in Hq. rewrite !inject_Z_Qred in Hq.
  unfold inject_Z in Hq. congruence.
Qed.

Lemma isInteger_of_Z (z : Z) : isInteger (of_Z z) = true.
Proof.
  unfold isInteger, of_Z. simpl. rewrite inject_Z_Qred. reflexivity.
Qed.

Lemma isInteger_inv (n : number) :
  isInteger n = true -> exists z : Z, n = of_Z z.
Proof.
  destruct n as [q| | |]; simpl; try discriminate.
  intros Hden. apply bool_decide_eq_true_1 in Hden.
  exists (Qnum (this q)). unfold of_Z. f_equal.
  apply Qc_is_canon. simpl. rewrite inject_Z_Qred.
  destruct q as [[n d] Hc]. simpl in *. subst d. reflexivity.
Qed.

Lemma gt_Z_of_Z (a b : Z) : gt_Z (of_Z a) b = true <-> b < a.
Proof.
  unfold gt_Z, of_Z. rewrite bool_decide_eq_true.
  unfold Qclt. simpl. rewrite Qred_lt, <- Zlt_Qlt. reflexivity.
Qed.

Lemma truthy_of_Z (z : Z) : truthy_number (of_Z z) = true <-> z <> 0.
Proof.
  unfold truthy_number, of_Z. rewrite negb_true_iff, bool_decide_eq_false.
  split.
  - intros Hne ->. apply Hne. reflexivity.
  - intros Hz Heq. apply Hz. apply of_Z_inj. unfold of_Z. f_equal. exact Heq.
Qed.


(** ** The bucket queue *)

Section PriorityQueueFacts.
Context `{RegExp}.

Lemma buckets_lookup (names : list string) (m : gmap string (list Event.t))
    (p : string) :
  foldl (fun queues eventName => <[eventName := []]> queues) m names !! p
  = if decide (p ∈ names) then Some [] else m !! p.
Proof.
  revert m. induction names as [|n names IH]; intros m; simpl.
  - destruct (decide (p ∈ [])) as [Hin|]; [inversion Hin | reflexivity].
  - rewrite IH. destruct (decide (p ∈ names)) as [Hin|Hnin].
    + rewrite decide_True by (right; exact Hin). reflexivity.
    + destruct (decide (p = n)) as [->|Hne].
      * rewrite decide_True by left. apply lookup_insert_eq.
      * rewrite decide_False.
        -- apply lookup_insert_ne. congruence.
        -- intros Hin. apply elem_of_cons in Hin. tauto.
Qed.

Lemma drain_order_ext (names : list string)
    (m1 m2 : gmap string (list Event.t)) :
  (forall n, n ∈ names -> default [] (m1 !! n) = default [] (m2 !! n)) ->
  drain_order m1 names = drain_order m2 names.
Proof.
  revert m1 m2. induction names as [|n names IH]; intros m1 m2 Hext; simpl.
  - reflexivity.
  - rewrite (Hext n) by left. f_equal. apply IH. intros n' Hn'.
    destruct (decide (n' = n)) as [->|Hne].
    + rewrite !lookup_delete_eq. reflexivity.
    + rewrite !lookup_delete_ne by congruence. apply Hext. right. exact Hn'.
Qed.

Lemma drain_order_elem (names : list string)
    (m : gmap string (list Event.t)) (e : Event.t) :
  e ∈ drain_order m names ->
  exists p l, p ∈ names /\ m !! p = Some l /\ e ∈ l.
Proof.
  revert m. induction names as [|n names IH]; intros m; simpl.
  - intros Hin. inversion Hin.
  - rewrite elem_of_app. intros [Hin|Hin].
    + destruct (m !! n) as [l|] eqn:Hl; simpl in Hin; [|inversion Hin].
      exists n, l. split; [left | auto].
    + destruct (IH _ Hin) as (p & l & Hp & Hl & He).
      destruct (decide (p = n)) as [->|Hne].
      * rewrite lookup_delete_eq in Hl. discriminate.
      * rewrite lookup_delete_ne in Hl by congruence.
        exists p, l. split; [right; exact Hp | auto].
Qed.

Lemma drain_order_nil (names : list string)
    (m : gmap string (list Event.t)) :
  (forall p l, m !! p = Some l -> l = []) -> drain_order m names = [].
Proof.
  intros Hempty. destruct (drain_order m names) as [|e rest] eqn:Hd.
  - reflexivity.
  - assert (Hin : e ∈ drain_order m names) by (rewrite Hd; left).
    destruct (drain_order_elem _ _ _ Hin) as (p & l & _ & Hl & He).
    rewrite (Hempty _ _ Hl) in He. inversion He.
Qed.

(** Construction. *)
Lemma new_priorityList (declared : list string) :
  PriorityQueue._priorityList (PriorityQueue.new declared) = declared ++ [""].
Proof. reflexivity. Qed.

Lemma new_eventQueues (declared : list string) (p : string) :
  PriorityQueue._eventQueues (PriorityQueue.new declared) !! p
  = if decide (p ∈ declared ++ [""]) then Some [] else None.
Proof.
  unfold PriorityQueue.new, PriorityQueue.setPriorities. simpl.
  rewrite buckets_lookup, lookup_empty. reflexivity.
Qed.

Lemma new_contents (declared : list string) :
  pq_contents (PriorityQueue.new declared) = [].
Proof.
  apply drain_order_nil. intros p l.
  rewrite new_eventQueues. destruct (decide _); congruence.
Qed.

Lemma new_inv (declared : list string) :
  pq_inv declared (PriorityQueue.new declared).
Proof.
  split.
  - reflexivity.
  - intros p Hp. rewrite new_eventQueues, new_priorityList in *.
    rewrite decide_True by exact Hp. eauto.
  - intros p l e Hl He. rewrite new_eventQueues in Hl.
    destruct (decide _); [|discriminate].
    injection Hl as <-. inversion He.
  - rewrite new_contents. reflexivity.
Qed.

(** The scan of [find]. *)
Lemma find_pattern_Some (text : string) (names : list string) (p : string) :
  PriorityQueue.find_pattern text names = Returned (Some p) ->
  p ∈ names /\ RegExp_test p text = Some true.
Proof.
  induction names as [|n names IH]; simpl; [discriminate|].
  destruct (RegExp_test n text) as [[|]|] eqn:Ht; [| |discriminate].
  - intros [= <-]. split; [left | exact Ht].
  - intros Hf. destruct (IH Hf). split; [right|]; assumption.
Qed.

Lemma find_pattern_wildcard (text : string) (names : list string) :
  empty_pattern_matches ->
  PriorityQueue.find_pattern text (names ++ [""]) <> Returned None.
Proof.
  intros Hempty. induction names as [|n names IH]; simpl.
  - rewrite Hempty. discriminate.
  - destruct (RegExp_test n text) as [[|]|]; [discriminate|exact IH|discriminate].
Qed.


Lemma find_pattern_throws (text : string) (names : list string) (e : error) :
  PriorityQueue.find_pattern text names = Thrown e -> e = SyntaxError.
Proof.
  induction names as [|n names IH]; simpl; [discriminate|].
  destruct (RegExp_test n text) as [[|]|]; [discriminate|exact IH|congruence].
Qed.


Lemma find_pattern_tail (text : string) (n p : string) (names : list string) :
  PriorityQueue.find_pattern text (n :: names) = Returned (Some p) ->
  p <> n ->
  RegExp_test n text = Some false
  /\ PriorityQueue.find_pattern text names = Returned (Some p).
Proof.
  simpl. destruct (RegExp_test n text) as [[|]|]; [|auto|discriminate].
  intros [= ->] Hne. congruence.
Qed.

Lemma find_pattern_head (text : string) (n : string) (names : list string) :
  PriorityQueue.find_pattern text (n :: names) = Returned (Some n) ->
  RegExp_test n text = Some true.
Proof.
  intros Hf. apply find_pattern_Some in Hf. tauto.
Qed.

(** Where [add] puts an event: behind every queued event of the same or a
    better rank, ahead of every event of a worse one. *)
Lemma add_position (names : list string) :
  forall (m : gmap string (list Event.t)) (p : string) (l : list Event.t)
         (e : Event.t),
    (forall p' l' x, m !! p' = Some l' -> x ∈ l' ->
       PriorityQueue.find_pattern (Event.name_text x) names
       = Returned (Some p')) ->
    PriorityQueue.find_pattern (Event.name_text e) names
    = Returned (Some p) ->
    m !! p = Some l ->
    exists pre post,
      drain_order m names = pre ++ post
      /\ drain_order (<[p := l ++ [e]]> m) names = pre ++ e :: post
      /\ Forall (fun x => (rank (Event.name_text x) names
                           <= rank (Event.name_text e) names)%nat) pre
      /\ Forall (fun x => (rank (Event.name_text e) names
                           < rank (Event.name_text x) names)%nat) post.
Proof.
  induction names as [|n names IH]; intros m p l e Hhome Hfind Hl.
  - discriminate.
  - assert (Hbucket : forall x, x ∈ default [] (m !! n) ->
              RegExp_test n (Event.name_text x) = Some true).
    { intros x Hx. destruct (m !! n) as [ln|] eqn:Hn; [|inversion Hx].
      eapply find_pattern_head, Hhome; eauto. }
    assert (Hrest : forall p' l' x, delete n m !! p' = Some l' -> x ∈ l' ->
              RegExp_test n (Event.name_text x) = Some false
              /\ PriorityQueue.find_pattern (Event.name_text x) names
                 = Returned (Some p')).
    { intros p' l' x Hp' Hx.
      destruct (decide (p' = n)) as [->|Hne].
      - rewrite lookup_delete_eq in Hp'. discriminate.
      - rewrite lookup_delete_ne in Hp' by congruence.
        apply find_pattern_tail; eauto. }
    destruct (decide (p = n)) as [->|Hne].
    + exists l, (drain_order (delete n m) names). simpl.
      rewrite Hl, lookup_insert_eq, delete_insert_eq. simpl.
      rewrite <- app_assoc. simpl.
      rewrite (find_pattern_head _ _ _ Hfind).
      repeat split; auto.
      * apply list.Forall_forall. intros x Hx.
        rewrite (Hbucket x) by (rewrite Hl; exact Hx). lia.
      * apply list.Forall_forall. intros x Hx.
        destruct (drain_order_elem _ _ _ Hx) as (p' & l' & _ & Hp' & Hx').
        destruct (Hrest _ _ _ Hp' Hx') as [-> _]. lia.
    + destruct (find_pattern_tail _ _ _ _ Hfind Hne) as [Htest Hfind'].
      destruct (IH (delete n m) p l e) as (pre & post & Hd & Hd' & Hpre & Hpost).
      * intros p' l' x Hp' Hx. eapply Hrest; eauto.
      * exact Hfind'.
      * rewrite lookup_delete_ne by congruence. exact Hl.
      * exists (default [] (m !! n) ++ pre), post. simpl.
        rewrite lookup_insert_ne by congruence.
        rewrite delete_insert_ne by congruence.
        rewrite Hd, Hd', Htest, <- !app_assoc.
        repeat split; auto.
        -- apply Forall_app. split.
           ++ apply list.Forall_forall. intros x Hx. rewrite (Hbucket x Hx). lia.
           ++ eapply List.Forall_impl; [|exact Hpre]. simpl. intros x Hle.
              destruct (RegExp_test n (Event.name_text x)) as [[|]|]; lia.
        -- apply list.Forall_forall. intros x Hx.
           assert (Hin : x ∈ drain_order (delete n m) names).
           { rewrite Hd. apply elem_of_app. right. exact Hx. }
           destruct (drain_order_elem _ _ _ Hin) as (p' & l' & _ & Hp' & Hx').
           destruct (Hrest _ _ _ Hp' Hx') as [-> _].
           rewrite list.Forall_forall in Hpost. specialize (Hpost x Hx). lia.
Qed.


(** What the scan of [next] finds, in terms of the drain order. *)
Lemma next_scan_spec (names : list string) :
  forall m : gmap string (list Event.t),
    (forall p, p ∈ names -> is_Some (m !! p)) ->
    match drain_order m names with
    | [] => PriorityQueue.next_scan m names = Returned None
    | e :: rest =>
      exists n queue,
        PriorityQueue.next_scan m names = Returned (Some (n, e, queue))
        /\ n ∈ names /\ m !! n = Some (e :: queue)
        /\ drain_order (<[n := queue]> m) names = rest
    end.
Proof.
  induction names as [|p names IH]; intros m Hall; simpl.
  - reflexivity.
  - destruct (Hall p) as [l Hl]; [left|]. rewrite Hl. simpl.
    destruct l as [|e queue]; simpl.
    + assert (Hsame : drain_order (delete p m) names = drain_order m names).
      { apply drain_order_ext. intros n _.
        destruct (decide (n = p)) as [->|Hne].
        - rewrite lookup_delete_eq, Hl. reflexivity.
        - rewrite lookup_delete_ne by congruence. reflexivity. }
      rewrite Hsame.
      specialize (IH m (fun q Hq => Hall q (list_elem_of_further _ _ _ Hq))).
      destruct (drain_order m names) as [|e rest]; [exact IH|].
      destruct IH as (n & queue & Hscan & Hn & Hmn & Hd).
      exists n, queue. repeat split; auto.
      * right. exact Hn.
      * assert (Hne : n <> p) by congruence.
        rewrite lookup_insert_ne, Hl by exact Hne. simpl.
        rewrite <- Hd. apply drain_order_ext. intros n' _.
        destruct (decide (n' = p)) as [->|Hne'].
        -- rewrite lookup_delete_eq, lookup_insert_ne, Hl by exact Hne.
           reflexivity.
        -- rewrite lookup_delete_ne by congruence. reflexivity.
    + exists p, queue. repeat split; auto.
      * left.
      * rewrite lookup_insert_eq, delete_insert_eq. reflexivity.
Qed.

(** [next] on a queue that satisfies the invariant: it hands out the head of
    the drain order, and nothing when the order is empty. *)
Lemma pq_next_spec (declared : list string) (q : PriorityQueue.t) :
  pq_inv declared q ->
  match pq_contents q with
  | [] => PriorityQueue.next q = (q, Returned None)
  | e :: rest =>
    exists q', PriorityQueue.next q = (q', Returned (Some e))
               /\ pq_inv declared q' /\ pq_contents q' = rest
  end.
Proof.
  intros [Hlist Hbuckets Hhome Hlen].
  pose proof (next_scan_spec _ _ Hbuckets) as Hscan.
  unfold pq_contents in *. unfold PriorityQueue.next.
  destruct (drain_order _ _) as [|e rest] eqn:Hd.
  - rewrite bool_decide_eq_true_2 by exact Hlen. reflexivity.
  - rewrite bool_decide_eq_false_2 by (rewrite Hlen; discriminate).
    destruct Hscan as (n & queue & -> & Hn & Hmn & Hd').
    eexists. split; [reflexivity|]. split; [|exact Hd'].
    split; simpl.
    + exact Hlist.
    + intros p Hp. destruct (decide (p = n)) as [->|Hne].
      * rewrite lookup_insert_eq. eauto.
      * rewrite lookup_insert_ne by congruence. auto.
    + intros p l x Hp Hx. destruct (decide (p = n)) as [->|Hne].
      * rewrite lookup_insert_eq in Hp. injection Hp as <-.
        eapply Hhome; [exact Hmn|]. right. exact Hx.
      * rewrite lookup_insert_ne in Hp by congruence. eauto.
    + unfold pq_contents. simpl. rewrite Hd', Hlen. reflexivity.
Qed.

(** [add] on a queue that satisfies the invariant. *)
Lemma pq_add_spec (declared : list string) (q : PriorityQueue.t)
    (e : Event.t) :
  empty_pattern_matches ->
  pq_inv declared q ->
  PriorityQueue.add q e = (q, Thrown SyntaxError)
  \/ exists q' pre post,
       PriorityQueue.add q e = (q', Returned tt)
       /\ pq_inv declared q'
       /\ pq_contents q = pre ++ post
       /\ pq_contents q' = pre ++ e :: post
       /\ Forall (fun x =>
                   (rank (Event.name_text x) (declared ++ [""])
                    <= rank (Event.name_text e) (declared ++ [""]))%nat) pre
       /\ Forall (fun x =>
                   (rank (Event.name_text e) (declared ++ [""])
                    < rank (Event.name_text x) (declared ++ [""]))%nat) post.
Proof.
  intros Hempty [Hlist Hbuckets Hhome Hlen].
  unfold PriorityQueue.add.
  destruct (PriorityQueue.find_pattern _ _) as [[p|]|err] eqn:Hfind.
  - right. simpl.
    destruct (find_pattern_Some _ _ _ Hfind) as [Hp _].
    destruct (Hbuckets p Hp) as [l Hl]. rewrite Hl.
    destruct (add_position _ _ _ _ _ Hhome Hfind Hl)
      as (pre & post & Hd & Hd' & Hpre & Hpost).
    rewrite Hlist in Hpre, Hpost.
    eexists _, pre, post. split; [reflexivity|].
    repeat split; simpl; auto.
    + intros p' Hp'. destruct (decide (p' = p)) as [->|Hne].
      * rewrite lookup_insert_eq. eauto.
      * rewrite lookup_insert_ne by congruence. auto.
    + intros p' l' x Hp' Hx. destruct (decide (p' = p)) as [->|Hne].
      * rewrite lookup_insert_eq in Hp'. injection Hp' as <-.
        apply elem_of_app in Hx as [Hx|Hx]; [eauto|].
        apply list_elem_of_singleton in Hx as ->. exact Hfind.
      * rewrite lookup_insert_ne in Hp' by congruence. eauto.
    + unfold pq_contents in *. simpl. rewrite Hd', Hlen, Hd.
      rewrite !length_app. simpl. lia.
  - exfalso. rewrite Hlist in Hfind.
    exact (find_pattern_wildcard _ _ Hempty Hfind).
  - left. rewrite (find_pattern_throws _ _ _ Hfind). reflexivity.
Qed.


End PriorityQueueFacts.

(** ** Claims about the bucket queue *)

Section PriorityQueueClaims.
Context `{RegExp}.

Lemma strict_new (declared : list string) :
  StrictPriorityQueue.new declared
  = (PriorityQueue.new declared, Returned tt).
Proof. reflexivity. Qed.

Lemma add_priorityList (q : PriorityQueue.t) (e : Event.t) :
  PriorityQueue._priorityList (PriorityQueue.add q e).1
  = PriorityQueue._priorityList q.
Proof.
  unfold PriorityQueue.add.
  destruct (PriorityQueue.find_pattern _ _) as [k|]; [|reflexivity].
  destruct (_ !! _); reflexivity.
Qed.

Lemma next_priorityList (q : PriorityQueue.t) :
  PriorityQueue._priorityList (PriorityQueue.next q).1
  = PriorityQueue._priorityList q.
Proof.
  unfold PriorityQueue.next. destruct (bool_decide _); [reflexivity|].
  destruct (PriorityQueue.next_scan _ _) as [[[[n e] l]|]|]; reflexivity.
Qed.

Lemma strict_do_priorityList (q : PriorityQueue.t) (c : pq_call) :
  PriorityQueue._priorityList q <> [] ->
  PriorityQueue._priorityList (pq_do true q c).1
  = PriorityQueue._priorityList q.
Proof.
  intros Hne. destruct c as [e | | l]; simpl.
  - unfold StrictPriorityQueue.add.
    destruct (assert _ _); simpl; [|reflexivity].
    pose proof (add_priorityList q e) as Hadd.
    destruct (PriorityQueue.add q e). exact Hadd.
  - apply next_priorityList.
  - unfold StrictPriorityQueue.setPriorities.
    rewrite bool_decide_eq_false_2; [reflexivity|].
    destruct (PriorityQueue._priorityList q); [congruence|discriminate].
Qed.

Lemma strict_run_priorityList (calls : list pq_call) (q : PriorityQueue.t) :
  PriorityQueue._priorityList q <> [] ->
  PriorityQueue._priorityList (pq_run true q calls).1.1
  = PriorityQueue._priorityList q.
Proof.
  revert q. induction calls as [|c calls IH]; intros q Hne; simpl.
  - reflexivity.
  - pose proof (strict_do_priorityList q c Hne) as Hdo.
    destruct (pq_do true q c) as [q' r]. simpl in Hdo.
    specialize (IH q'). rewrite Hdo in IH. specialize (IH Hne).
    destruct (pq_run true q' calls) as [[q'' adds] events]. exact IH.
Qed.

(** C7.  On the strict bucket queue [setPriorities] returns normally exactly
    when no pattern is stored, which is the case inside the constructor
    only: the constructor's own call succeeds, and after any sequence of
    calls on the constructed queue (adds, nexts, earlier attempts to set the
    priorities), a call with any list -- the queue may have been built from
    the empty list -- throws the validation error and leaves the queue, its
    pattern list and buckets included, as it was. *)
Theorem C7_strict_setPriorities_only_in_constructor
    (declared : list string) (calls : list pq_call) (l : list string) :
  (forall q l', (StrictPriorityQueue.setPriorities q l').2 = Returned tt
                <-> PriorityQueue._priorityList q = [])
  /\ (StrictPriorityQueue.new declared).2 = Returned tt
  /\ let q := (pq_run true (StrictPriorityQueue.new declared).1 calls).1.1 in
     StrictPriorityQueue.setPriorities q l
     = (q, Thrown (ValidationError UpdatingPriorityList)).
Proof.
  split; [|split].
  - intros q l'. unfold StrictPriorityQueue.setPriorities.
    destruct (PriorityQueue._priorityList q) as [|p ps]; simpl.
    + split; reflexivity.
    + split; discriminate.
  - reflexivity.
  - intros q. unfold StrictPriorityQueue.setPriorities.
    assert (Hlist : PriorityQueue._priorityList q = declared ++ [""]).
    { unfold q. rewrite strict_run_priorityList; [reflexivity|].
      simpl. destruct declared; discriminate. }
    rewrite Hlist, bool_decide_eq_false_2; [reflexivity|].
    destruct declared; discriminate.
Qed.

Lemma pq_reachable_inv (declared : list string) (q : PriorityQueue.t) :
  empty_pattern_matches -> pq_reachable declared q -> pq_inv declared q.
Proof.
  intros Hempty Hreach. induction Hreach as [|q e _ IH|q _ IH].
  - apply new_inv.
  - destruct (pq_add_spec declared q e Hempty IH)
      as [->|(q' & pre & post & -> & Hinv & _)]; assumption.
  - pose proof (pq_next_spec declared q IH) as Hnext.
    destruct (pq_contents q) as [|e rest].
    + rewrite Hnext. exact IH.
    + destruct Hnext as (q' & -> & Hinv & _). exact Hinv.
Qed.


End PriorityQueueClaims.


(** ** Scheduling time and validation *)

Section AddClaims.
Context `{RegExp}.


Lemma add_event (q : EventQueue.t) (event : Event.t) (time : option number) :
  (EventQueue.add q event time).1.2
  = Event.set_time (EventQueue.timeToUse q event time) event.
Proof.
  unfold EventQueue.add.
  destruct (PriorityQueue.add _ _) as [queue' [u|e]]; reflexivity.
Qed.


Lemma add_not_validation (q : EventQueue.t) (event : Event.t)
    (time : option number) (a : assertion) :
  (EventQueue.add q event time).2 <> Thrown (ValidationError a).
Proof.
  unfold EventQueue.add.
  set (queue := match _ !! _ with Some queue => queue | None => _ end).
  unfold PriorityQueue.add.
  destruct (PriorityQueue.find_pattern _ _) as [k|e] eqn:Hfind.
  - destruct (PriorityQueue._eventQueues queue !! _); simpl; discriminate.
  - simpl. rewrite (find_pattern_throws _ _ _ Hfind). discriminate.
Qed.

(** C3, as the code has it.  [add] schedules at its time argument when that
    is truthy (given, and neither 0 nor NaN), otherwise at the event's own
    time when that is truthy, otherwise at the tick after the current time;
    it overwrites the event's time with the time it chose, and the event it
    enqueues is the event so changed. *)
Theorem C3_time_resolution_by_truthiness
    (q : EventQueue.t) (event : Event.t) (time : option number) :
  let t := EventQueue.timeToUse q event time in
  (forall t0, time = Some t0 -> truthy_number t0 = true -> t = t0)
  /\ (truthy_time time = false ->
      forall t1, Event.time event = Some t1 -> truthy_number t1 = true ->
                 t = t1)
  /\ (truthy_time time = false -> truthy_time (Event.time event) = false ->
      t = of_Z (EventQueue._currentTime q + 1))
  /\ (EventQueue.add q event time).1.2 = Event.set_time t event
  /\ Event.time (EventQueue.add q event time).1.2 = Some t
  /\ ((EventQueue.add q event time).2 = Returned tt ->
      exists queue p l,
        EventQueue._timeQueues (EventQueue.add q event time).1.1 !! t
        = Some queue
        /\ PriorityQueue._eventQueues queue !! p
           = Some (l ++ [Event.set_time t event])).
Proof.
  intros t. unfold t. repeat split.
  - intros t0 -> Ht0. unfold EventQueue.timeToUse. rewrite Ht0. reflexivity.
  - intros Htime t1 Hev Ht1. unfold EventQueue.timeToUse.
    rewrite Hev, Ht1. destruct time as [t0|]; [|reflexivity].
    simpl in Htime. rewrite Htime. reflexivity.
  - intros Htime Hev. unfold EventQueue.timeToUse.
    destruct (Event.time event) as [t1|]; simpl in Hev;
      [rewrite Hev|]; (destruct time as [t0|]; [|reflexivity]);
      simpl in Htime; rewrite Htime; reflexivity.
  - apply add_event.
  - rewrite add_event. reflexivity.
  - unfold EventQueue.add.
    set (queue := match _ !! _ with Some queue => queue | None => _ end).
    unfold PriorityQueue.add.
    destruct (PriorityQueue.find_pattern _ _) as [k|e];
      [|simpl; discriminate].
    destruct (PriorityQueue._eventQueues queue !! _) as [l|] eqn:Hl; simpl;
      [|discriminate].
    intros _. eexists _, _, l. rewrite lookup_insert_eq.
    split; [reflexivity|]. simpl. apply lookup_insert_eq.
Qed.


End AddClaims.

(** C3 as the specification words it fails: an explicit time argument of 0
    is given, yet the event is scheduled at tick 1, not at 0. *)
Example C3_counterexample_explicit_zero :
  let q := EventQueue.new [] in
  let event := Event.mk (Some "a") None ∅ in
  spec_timeToUse q event (Some (of_Z 0)) = of_Z 0
  /\ EventQueue.timeToUse q event (Some (of_Z 0)) = of_Z 1
  /\ EventQueue.timeToUse q event (Some (of_Z 0))
     <> spec_timeToUse q event (Some (of_Z 0)).
Proof.
  split; [reflexivity|]. split; [reflexivity|].
  intros Heq. apply of_Z_inj in Heq. discriminate.
Qed.

(** The same in the strict class: an explicit 0 is not a resolved time of 0
    that the validation could refuse; the call returns and the event is
    scheduled at tick 1. *)
Example strict_add_explicit_zero :
  let r := @StrictEventQueue.add miniRegExp (StrictEventQueue.new [])
             (Event.mk (Some "a") None ∅) (Some (of_Z 0)) in
  r.2 = Returned tt /\ Event.time r.1.2 = Some (of_Z 1).
Proof. vm_compute. split; reflexivity. Qed.

(** C2 at the failing input: after [add] at time 5 and [add] at time 2 on a
    new strict queue, both times are occupied, the next event to come out is
    the one at time 2, and [nextTime] still says 5. *)
Example C2_nextTime_not_lowered_by_add :
  let q0 := StrictEventQueue.new [] in
  let q1 := (@StrictEventQueue.add miniRegExp q0
               (Event.mk (Some "a") None ∅) (Some (of_Z 5))).1.1 in
  let q2 := (@StrictEventQueue.add miniRegExp q1
               (Event.mk (Some "b") None ∅) (Some (of_Z 2))).1.1 in
  EventQueue.nextTime q2 = Some (of_Z 5)
  /\ EventQueue.length q2 = 2%nat
  /\ is_Some (EventQueue._timeQueues q2 !! of_Z 2)
  /\ is_Some (EventQueue._timeQueues q2 !! of_Z 5)
  /\ exists q3, EventQueue.next 2 q2
                = Some (q3, Returned (Some (Event.mk (Some "b")
                                              (Some (of_Z 2)) ∅))).
Proof.
  split; [vm_compute; reflexivity|].
  split; [vm_compute; reflexivity|].
  split; [vm_compute; eauto|].
  split; [vm_compute; eauto|].
  eexists. vm_compute. reflexivity.
Qed.

(** ** The time-indexed queue: slots *)

Lemma slots_app (tq : gmap number PriorityQueue.t) (n m : nat) (from : Z) :
  slots tq from (n + m)
  = slots tq from n ++ slots tq (from + Z.of_nat n) m.
Proof.
  revert from. induction n as [|n IH]; intros from.
  - simpl. f_equal. lia.
  - change (S n + m)%nat with (S (n + m)). simpl.
    rewrite IH, <- app_assoc. do 3 f_equal. lia.
Qed.

Lemma slots_ext (tq1 tq2 : gmap number PriorityQueue.t) (n : nat) (from : Z) :
  (forall z, from <= z < from + Z.of_nat n ->
             tq1 !! of_Z z = tq2 !! of_Z z) ->
  slots tq1 from n = slots tq2 from n.
Proof.
  revert from. induction n as [|n IH]; intros from Hext; simpl.
  - reflexivity.
  - unfold slot. rewrite (Hext from) by lia. f_equal.
    apply IH. intros z Hz. apply Hext. lia.
Qed.

Lemma slots_elem (tq : gmap number PriorityQueue.t) (n : nat) (from : Z)
    (e : Event.t) :
  e ∈ slots tq from n ->
  exists z pq, from <= z < from + Z.of_nat n
               /\ tq !! of_Z z = Some pq /\ e ∈ pq_contents pq.
Proof.
  revert from. induction n as [|n IH]; intros from; simpl.
  - intros Hin. inversion Hin.
  - rewrite elem_of_app. intros [Hin|Hin].
    + unfold slot in Hin.
      destruct (tq !! of_Z from) as [pq|] eqn:Hpq; [|inversion Hin].
      exists from, pq. split; [lia | auto].
    + destruct (IH _ Hin) as (z & pq & Hz & Hpq & He).
      exists z, pq. split; [lia | auto].
Qed.

Lemma slots_nil (tq : gmap number PriorityQueue.t) (n : nat) (from : Z) :
  (forall z, from <= z < from + Z.of_nat n -> tq !! of_Z z = None) ->
  slots tq from n = [].
Proof.
  intros Hnone. destruct (slots tq from n) as [|e rest] eqn:Hs; [reflexivity|].
  assert (Hin : e ∈ slots tq from n) by (rewrite Hs; left).
  destruct (slots_elem _ _ _ _ Hin) as (z & pq & Hz & Hpq & _).
  rewrite (Hnone z Hz) in Hpq. discriminate.
Qed.

Lemma slot_insert (tq : gmap number PriorityQueue.t) (z : Z)
    (pq : PriorityQueue.t) :
  slot (<[of_Z z := pq]> tq) z = pq_contents pq.
Proof. unfold slot. rewrite lookup_insert_eq. reflexivity. Qed.

Lemma slots_insert_out (tq : gmap number PriorityQueue.t) (k : number)
    (pq : PriorityQueue.t) (n : nat) (from : Z) :
  (forall z, from <= z < from + Z.of_nat n -> k <> of_Z z) ->
  slots (<[k := pq]> tq) from n = slots tq from n.
Proof.
  intros Hout. apply slots_ext. intros z Hz.
  apply lookup_insert_ne. apply Hout. exact Hz.
Qed.

Lemma slots_delete_out (tq : gmap number PriorityQueue.t) (k : number)
    (n : nat) (from : Z) :
  (forall z, from <= z < from + Z.of_nat n -> k <> of_Z z) ->
  slots (delete k tq) from n = slots tq from n.
Proof.
  intros Hout. apply slots_ext. intros z Hz.
  apply lookup_delete_ne. apply Hout. exact Hz.
Qed.

Lemma of_Z_neq (a b : Z) : a <> b -> of_Z a <> of_Z b.
Proof. intros Hne Heq. apply Hne, of_Z_inj, Heq. Qed.

Lemma time_lt_of_Z (a b : Z) :
  time_lt (Some (of_Z a)) (Some (of_Z b)) <-> a < b.
Proof.
  unfold time_lt, number_lt, of_Z, Qclt. simpl.
  rewrite Qred_lt, <- Zlt_Qlt. reflexivity.
Qed.

Section Rank.
Context `{RegExp}.

Lemma rank_wildcard (text : string) (declared : list string) :
  empty_pattern_matches ->
  rank text (declared ++ [""]) = rank text declared.
Proof.
  intros Hempty. induction declared as [|p declared IH]; simpl.
  - rewrite Hempty. reflexivity.
  - rewrite IH. reflexivity.
Qed.

End Rank.

(** ** The time-indexed queue: what every call keeps *)

Section EventQueueWf.
Context `{RegExp}.

Lemma pq_add_ok (declared : list string) (q : PriorityQueue.t) (e : Event.t) :
  empty_pattern_matches -> pq_inv declared q ->
  (PriorityQueue.add q e).2 = Returned tt ->
  exists q' pre post,
    PriorityQueue.add q e = (q', Returned tt)
    /\ pq_inv declared q'
    /\ pq_contents q = pre ++ post
    /\ pq_contents q' = pre ++ e :: post
    /\ Forall (fun x => (rank (Event.name_text x) declared
                         <= rank (Event.name_text e) declared)%nat) pre
    /\ Forall (fun x => (rank (Event.name_text e) declared
                         < rank (Event.name_text x) declared)%nat) post.
Proof.
  intros Hempty Hinv Hok.
  destruct (pq_add_spec declared q e Hempty Hinv)
    as [Hthrow|(q' & pre & post & Hadd & Hinv' & Hd & Hd' & Hpre & Hpost)].
  - rewrite Hthrow in Hok. discriminate.
  - exists q', pre, post. split_and!; auto.
    + eapply List.Forall_impl; [|exact Hpre]. simpl. intros x.
      rewrite !rank_wildcard by exact Hempty. auto.
    + eapply List.Forall_impl; [|exact Hpost]. simpl. intros x.
      rewrite !rank_wildcard by exact Hempty. auto.
Qed.

Lemma queue_at_inv (declared : list string) (q : EventQueue.t) (t : number) :
  eq_wf declared q -> pq_inv declared (queue_at q t).
Proof.
  intros [Hlist Hqueues _]. unfold queue_at.
  destruct (_ !! t) as [queue|] eqn:Hq.
  - apply (Hqueues _ _ Hq).
  - rewrite Hlist. apply new_inv.
Qed.

Lemma add_unfold (q : EventQueue.t) (event : Event.t) (time : option number) :
  let t := EventQueue.timeToUse q event time in
  let r := PriorityQueue.add (queue_at q t) (Event.set_time t event) in
  EventQueue.add q event time
  = ({| EventQueue._priorityList := EventQueue._priorityList q;
        EventQueue._timeQueues := <[t := r.1]> (EventQueue._timeQueues q);
        EventQueue._length :=
          match r.2 with
          | Returned _ => S (EventQueue._length q)
          | Thrown _ => EventQueue._length q
          end;
        EventQueue._currentQueue := EventQueue._currentQueue q;
        EventQueue._currentTime := EventQueue._currentTime q;
        EventQueue._nextTime :=
          if truthy_time (EventQueue._nextTime q)
          then EventQueue._nextTime q else Some t |},
     Event.set_time t event,
     match r.2 with Returned _ => Returned tt | Thrown e => Thrown e end).
Proof.
  intros t r. unfold EventQueue.add. fold t. unfold r, queue_at.
  destruct (PriorityQueue.add _ _) as [queue' [u|e]]; reflexivity.
Qed.





End EventQueueWf.

(** ** Counting adds and events *)

Section Counts.
Context `{RegExp}.








Lemma next_on_empty (q : EventQueue.t) (fuel : nat) :
  EventQueue.length q = 0%nat ->
  EventQueue.next fuel q = Some (q, Returned None).
Proof.
  unfold EventQueue.length, EventQueue.next. intros ->. reflexivity.
Qed.



End Counts.

(** ** The time-indexed queue under scheduling in the future *)

Section EventQueueInv.
Context `{RegExp}.

Lemma beyond_horizon (declared : list string) (B : nat) (q : EventQueue.t)
    (z : Z) :
  eq_inv declared B q ->
  EventQueue._currentTime q + Z.of_nat B < z ->
  EventQueue._timeQueues q !! of_Z z = None.
Proof.
  intros Hinv Hz.
  destruct (EventQueue._timeQueues q !! of_Z z) as [pq|] eqn:Hpq;
    [|reflexivity].
  destruct (eq_inv_horizon _ _ _ Hinv _ _ Hpq) as (z' & Heq & Hz').
  apply of_Z_inj in Heq. lia.
Qed.

Lemma eq_contents_horizon (declared : list string) (B B' : nat)
    (q : EventQueue.t) :
  eq_inv declared B q -> (B <= B')%nat ->
  eq_contents B' q = eq_contents B q.
Proof.
  intros Hinv Hle. unfold eq_contents. f_equal.
  replace B' with (B + (B' - B))%nat by lia.
  rewrite slots_app.
  rewrite (slots_nil _ (B' - B)).
  - apply app_nil_r.
  - intros z Hz. eapply beyond_horizon; [exact Hinv | lia].
Qed.

Lemma eq_inv_horizon_mono (declared : list string) (B B' : nat)
    (q : EventQueue.t) :
  eq_inv declared B q -> (B <= B')%nat -> eq_inv declared B' q.
Proof.
  intros Hinv Hle. pose proof Hinv as [Hwf Hhor Htimes Hcur Hcount].
  split; auto.
  - intros k pq Hk. destruct (Hhor k pq Hk) as (z & Hz & Hrange).
    exists z. split; [exact Hz | lia].
  - rewrite (eq_contents_horizon declared B B' q Hinv Hle). exact Hcount.
Qed.

Lemma empty_at_new (declared : list string) :
  empty_at declared 0 = EventQueue.new declared.
Proof. reflexivity. Qed.

Lemma empty_at_inv (declared : list string) (c : Z) :
  eq_inv declared 0 (empty_at declared c).
Proof.
  split; simpl.
  - split; simpl; [reflexivity| |discriminate].
    intros k pq. rewrite lookup_empty. discriminate.
  - intros k pq. rewrite lookup_empty. discriminate.
  - intros z pq. rewrite lookup_empty. discriminate.
  - discriminate.
  - reflexivity.
Qed.

Lemma slot_queue_at (q : EventQueue.t) (z : Z) :
  slot (EventQueue._timeQueues q) z = pq_contents (queue_at q (of_Z z)).
Proof.
  unfold slot, queue_at.
  destruct (_ !! of_Z z); [reflexivity|]. symmetry. apply new_contents.
Qed.

Lemma queue_at_times (declared : list string) (B : nat) (q : EventQueue.t)
    (z : Z) :
  eq_inv declared B q ->
  Forall (fun e => Event.time e = Some (of_Z z))
         (pq_contents (queue_at q (of_Z z))).
Proof.
  intros Hinv. unfold queue_at.
  destruct (_ !! of_Z z) as [pq|] eqn:Hpq.
  - exact (eq_inv_times _ _ _ Hinv _ _ Hpq).
  - rewrite new_contents. constructor.
Qed.

Lemma slots_split (tq : gmap number PriorityQueue.t) (c z : Z) (B : nat) :
  c < z <= c + Z.of_nat B ->
  slots tq (c + 1) B
  = slots tq (c + 1) (Z.to_nat (z - c - 1))
    ++ slot tq z ++ slots tq (z + 1) (B - Z.to_nat (z - c))%nat.
Proof.
  intros Hz.
  replace B with (Z.to_nat (z - c - 1) + S (B - Z.to_nat (z - c)))%nat
    at 1 by lia.
  rewrite slots_app. simpl.
  replace (c + 1 + Z.of_nat (Z.to_nat (z - c - 1))) with z by lia.
  reflexivity.
Qed.

Lemma slots_times (declared : list string) (B : nat) (q : EventQueue.t)
    (from : Z) (n : nat) (e : Event.t) :
  eq_inv declared B q ->
  e ∈ slots (EventQueue._timeQueues q) from n ->
  exists z, from <= z < from + Z.of_nat n /\ Event.time e = Some (of_Z z).
Proof.
  intros Hinv Hin.
  destruct (slots_elem _ _ _ _ Hin) as (z & pq & Hz & Hpq & He).
  exists z. split; [exact Hz|].
  pose proof (eq_inv_times _ _ _ Hinv _ _ Hpq) as Htimes.
  rewrite list.Forall_forall in Htimes. auto.
Qed.


Lemma no_later_of_times (declared : list string) (x e : Event.t) (a b : Z) :
  Event.time x = Some (of_Z a) -> Event.time e = Some (of_Z b) -> a < b ->
  no_later declared x e.
Proof.
  intros Hx He Hlt. left. left. rewrite Hx, He. apply time_lt_of_Z. exact Hlt.
Qed.

Lemma earlier_of_times (declared : list string) (x e : Event.t) (a b : Z) :
  Event.time x = Some (of_Z a) -> Event.time e = Some (of_Z b) -> a < b ->
  earlier declared x e.
Proof.
  intros Hx He Hlt. left. rewrite Hx, He. apply time_lt_of_Z. exact Hlt.
Qed.

(** [add] at an integer time after the current time keeps the invariant and
    puts the event behind everything that goes out no later than it and
    ahead of everything that goes out later. *)
Lemma eq_inv_add (declared : list string) (B : nat) (q q' : EventQueue.t)
    (event event' : Event.t) (time : option number) :
  empty_pattern_matches ->
  eq_inv declared B q ->
  isInteger (EventQueue.timeToUse q event time) = true ->
  gt_Z (EventQueue.timeToUse q event time) (EventQueue._currentTime q)
  = true ->
  EventQueue.add q event time = (q', event', Returned tt) ->
  exists B' pre post,
    (B <= B')%nat /\ eq_inv declared B' q'
    /\ EventQueue._currentTime q' = EventQueue._currentTime q
    /\ eq_contents B q = pre ++ post
    /\ eq_contents B' q' = pre ++ event' :: post
    /\ Forall (fun x => no_later declared x event') pre
    /\ Forall (fun x => earlier declared event' x) post.
Proof.
  intros Hempty Hinv Hint Hgt Hadd.
  destruct (isInteger_inv _ Hint) as [z Hz].
  rewrite Hz in Hgt. apply gt_Z_of_Z in Hgt.
  rewrite add_unfold, Hz in Hadd.
  set (ev := Event.set_time (of_Z z) event) in *.
  pose proof (queue_at_inv declared q (of_Z z) (eq_inv_wf _ _ _ Hinv))
    as Hqinv.
  pose proof (queue_at_times declared B q z Hinv) as Hqtimes.
  pose proof (slot_queue_at q z) as Hslot.
  destruct (PriorityQueue.add (queue_at q (of_Z z)) ev) as [queue' r] eqn:Hpq.
  simpl in Hadd. destruct r as [u|err]; [|discriminate].
  injection Hadd as <- <-.
  destruct (pq_add_ok declared _ ev Hempty Hqinv)
    as (queue'' & pre0 & post0 & Hadd' & Hinv' & Hd & Hd' & Hpre0 & Hpost0).
  { rewrite Hpq. destruct u. reflexivity. }
  rewrite Hpq in Hadd'. injection Hadd' as <-.
  rewrite Hd in Hslot, Hqtimes.
  apply Forall_app in Hqtimes as [Htpre0 Htpost0].
  set (c := EventQueue._currentTime q) in *.
  set (tq := EventQueue._timeQueues q) in *.
  set (B' := Nat.max B (Z.to_nat (z - c))).
  assert (HB : (B <= B')%nat) by lia.
  pose proof (eq_inv_horizon_mono declared B B' q Hinv HB) as HinvB'.
  pose proof (eq_contents_horizon declared B B' q Hinv HB) as Hsame.
  assert (Hrange : c < z <= c + Z.of_nat B') by lia.
  assert (Hev : Event.time ev = Some (of_Z z)) by reflexivity.
  exists B',
    (current_contents q ++ slots tq (c + 1) (Z.to_nat (z - c - 1)) ++ pre0),
    (post0 ++ slots tq (z + 1) (B' - Z.to_nat (z - c))).
  assert (Hold : eq_contents B q
                 = (current_contents q
                    ++ slots tq (c + 1) (Z.to_nat (z - c - 1)) ++ pre0)
                   ++ post0 ++ slots tq (z + 1) (B' - Z.to_nat (z - c))).
  { rewrite <- Hsame. unfold eq_contents. fold c tq.
    rewrite (slots_split tq c z B' Hrange), Hslot, <- !app_assoc.
    reflexivity. }
  assert (Hnew : current_contents q
                 ++ slots (<[of_Z z := queue']> tq) (c + 1) B'
                 = (current_contents q
                    ++ slots tq (c + 1) (Z.to_nat (z - c - 1)) ++ pre0)
                   ++ ev :: post0
                   ++ slots tq (z + 1) (B' - Z.to_nat (z - c))).
  { rewrite (slots_split _ c z B' Hrange), slot_insert, Hd'.
    rewrite !slots_insert_out.
    - rewrite <- !app_assoc. reflexivity.
    - intros z' Hz'. apply of_Z_neq. lia.
    - intros z' Hz'. apply of_Z_neq. lia. }
  split_and!.
  - exact HB.
  - pose proof HinvB' as [[Hlist Hqueues Hcurrent] Hhor Htimes Hcur Hcount].
    split; simpl.
    + split; simpl; auto.
      intros k pq. destruct (decide (k = of_Z z)) as [->|Hne].
      * rewrite lookup_insert_eq. intros [= <-]. split; [exact Hinv'|].
        rewrite Hd'. destruct pre0; discriminate.
      * rewrite lookup_insert_ne by congruence. apply Hqueues.
    + intros k pq. destruct (decide (k = of_Z z)) as [->|Hne].
      * intros _. exists z. split; [reflexivity | exact Hrange].
      * rewrite lookup_insert_ne by congruence. apply Hhor.
    + intros z' pq. destruct (decide (z' = z)) as [->|Hne].
      * rewrite lookup_insert_eq. intros [= <-]. rewrite Hd'.
        apply Forall_app. split; [exact Htpre0|].
        constructor; [exact Hev | exact Htpost0].
      * rewrite lookup_insert_ne by (apply of_Z_neq; congruence).
        apply Htimes.
    + exact Hcur.
    + unfold eq_contents, current_contents. simpl.
      fold (current_contents q). fold c tq.
      rewrite Hnew. rewrite Hcount, Hsame, Hold.
      rewrite !length_app. simpl. rewrite !length_app. lia.
  - reflexivity.
  - exact Hold.
  - unfold eq_contents, current_contents. simpl.
    fold (current_contents q). fold c tq. exact Hnew.
  - apply Forall_app. split; [|apply Forall_app; split].
    + apply list.Forall_forall. intros x Hx.
      unfold current_contents in Hx.
      destruct (EventQueue._currentQueue q) as [pq|] eqn:Hcq;
        [|inversion Hx].
      pose proof (eq_inv_current_times _ _ _ Hinv _ Hcq) as Hcur.
      rewrite list.Forall_forall in Hcur.
      eapply no_later_of_times; [apply Hcur, Hx | exact Hev | exact Hgt].
    + apply list.Forall_forall. intros x Hx.
      destruct (slots_times declared B q _ _ _ Hinv Hx) as (z' & Hz' & Htx).
      eapply no_later_of_times; [exact Htx | exact Hev | lia].
    + rewrite list.Forall_forall in Htpre0.
      rewrite list.Forall_forall in Hpre0.
      apply list.Forall_forall. intros x Hx.
      specialize (Htpre0 x Hx). specialize (Hpre0 x Hx). simpl in Hpre0.
      unfold no_later, earlier, event_rank. rewrite Htpre0, Hev.
      destruct (decide (rank (Event.name_text x) declared
                        = rank (Event.name_text ev) declared)) as [Heq|Hne].
      * right. auto.
      * left. right. split; [reflexivity | lia].
  - apply Forall_app. split.
    + rewrite list.Forall_forall in Htpost0.
      rewrite list.Forall_forall in Hpost0.
      apply list.Forall_forall. intros x Hx.
      specialize (Htpost0 x Hx). specialize (Hpost0 x Hx). simpl in Hpost0.
      right. rewrite Htpost0, Hev. split; [reflexivity | exact Hpost0].
    + apply list.Forall_forall. intros x Hx.
      destruct (slots_times declared B q _ _ _ Hinv Hx) as (z' & Hz' & Htx).
      eapply earlier_of_times; [exact Hev | exact Htx | lia].
Qed.

End EventQueueInv.

Section EventQueueNext.
Context `{RegExp}.

Lemma advance_current (fuel : nat) (tq : gmap number PriorityQueue.t)
    (ct : Z) (pq : PriorityQueue.t) :
  EventQueue.advance fuel tq ct (Some pq) = Some (ct, pq).
Proof. destruct fuel; reflexivity. Qed.

(** The loop of [next] stops at the first occupied tick, which it reaches
    when the fuel covers the ticks up to it. *)
Lemma advance_slots (tq : gmap number PriorityQueue.t) (n : nat) :
  forall (ct : Z) (fuel : nat),
    slots tq (ct + 1) n <> [] -> (n <= fuel)%nat ->
    exists ct' pq,
      ct < ct' <= ct + Z.of_nat n
      /\ EventQueue.advance fuel tq ct None = Some (ct', pq)
      /\ tq !! of_Z ct' = Some pq
      /\ (forall z, ct < z < ct' -> tq !! of_Z z = None)
      /\ slots tq (ct + 1) n
         = pq_contents pq
           ++ slots tq (ct' + 1) (n - Z.to_nat (ct' - ct))%nat.
Proof.
  induction n as [|n IH]; intros ct fuel Hne Hfuel.
  - simpl in Hne. congruence.
  - destruct fuel as [|fuel]; [lia|]. simpl.
    unfold slot at 1. destruct (tq !! of_Z (ct + 1)) as [pq|] eqn:Hpq.
    + exists (ct + 1), pq. rewrite advance_current.
      split_and!; auto; try lia.
      replace (S n - Z.to_nat (ct + 1 - ct))%nat with n by lia.
      reflexivity.
    + simpl in Hne. unfold slot in Hne. rewrite Hpq in Hne. simpl in Hne.
      destruct (IH (ct + 1) fuel Hne ltac:(lia))
        as (ct' & pq & Hrange & Hadv & Hlook & Hgap & Hslots).
      exists ct', pq. split_and!; auto; try lia.
      * intros z Hz. destruct (decide (z = ct + 1)) as [->|Hz'];
          [exact Hpq | apply Hgap; lia].
      * simpl. rewrite Hslots. do 2 f_equal. lia.
Qed.

(** What [next] does once its loop has stopped at the bucket queue [pq] of
    tick [ct']. *)
Lemma next_after_advance (declared : list string) (B B' : nat)
    (q : EventQueue.t) (fuel : nat) (ct' : Z) (pq : PriorityQueue.t) :
  eq_inv declared B q ->
  EventQueue.advance fuel (EventQueue._timeQueues q)
    (EventQueue._currentTime q) (EventQueue._currentQueue q)
  = Some (ct', pq) ->
  pq_inv declared pq ->
  pq_contents pq <> [] ->
  Forall (fun e => Event.time e = Some (of_Z ct')) (pq_contents pq) ->
  EventQueue._currentTime q <= ct' ->
  (forall k pq0,
     delete (of_Z ct') (EventQueue._timeQueues q) !! k = Some pq0 ->
     exists z, k = of_Z z /\ ct' < z <= ct' + Z.of_nat B') ->
  eq_contents B q
  = pq_contents pq ++ slots (EventQueue._timeQueues q) (ct' + 1) B' ->
  exists e rest q',
    eq_contents B q = e :: rest
    /\ EventQueue.next fuel q = Some (q', Returned (Some e))
    /\ eq_inv declared B' q'
    /\ eq_contents B' q' = rest.
Proof.
  intros Hinv Hadv Hpq Hne Htimes Hle Hhor Hcontents.
  pose proof Hinv as [[Hlist Hqueues Hcurrent] _ Htq _ Hcount].
  pose proof (pq_next_spec declared pq Hpq) as Hnext.
  destruct (pq_contents pq) as [|e rest0] eqn:Hc; [congruence|].
  destruct Hnext as (pq' & Hnext & Hinv' & Hrest0).
  set (tq := EventQueue._timeQueues q) in *.
  assert (Hslots : slots (delete (of_Z ct') tq) (ct' + 1) B'
                   = slots tq (ct' + 1) B').
  { apply slots_delete_out. intros z Hz. apply of_Z_neq. lia. }
  assert (Hqueues' : forall k pq0,
            delete (of_Z ct') tq !! k = Some pq0 ->
            pq_inv declared pq0 /\ pq_contents pq0 <> []).
  { intros k pq0 Hk. apply lookup_delete_Some in Hk as [_ Hk]. eauto. }
  assert (Htq' : forall z pq0,
            delete (of_Z ct') tq !! of_Z z = Some pq0 ->
            Forall (fun e => Event.time e = Some (of_Z z)) (pq_contents pq0)).
  { intros z pq0 Hk. apply lookup_delete_Some in Hk as [_ Hk]. eauto. }
  assert (Hlen : EventQueue._length q
                 = S (length (rest0 ++ slots tq (ct' + 1) B'))).
  { rewrite Hcount, Hcontents. reflexivity. }
  exists e, (rest0 ++ slots tq (ct' + 1) B').
  unfold EventQueue.next. fold tq.
  rewrite bool_decide_eq_false_2 by lia.
  fold tq in Hadv. rewrite Hadv, Hnext. unfold PriorityQueue.isEmpty.
  rewrite (pq_inv_length _ _ Hinv'), Hrest0.
  pose proof (List.Forall_inv_tail Htimes) as Hrest0times.
  destruct rest0 as [|e1 rest1].
  - rewrite bool_decide_eq_true_2 by reflexivity.
    eexists. split_and!; [exact Hcontents | reflexivity | |].
    + split; simpl; auto.
      * split; simpl; auto. discriminate.
      * discriminate.
      * unfold eq_contents, current_contents. simpl. fold tq.
        rewrite Hslots, Hlen. reflexivity.
    + unfold eq_contents, current_contents. simpl. fold tq.
      exact Hslots.
  - rewrite bool_decide_eq_false_2 by discriminate.
    eexists. split_and!; [exact Hcontents | reflexivity | |].
    + split; simpl; auto.
      * split; simpl; auto. intros pq0 [= <-]. split; [exact Hinv'|].
        rewrite Hrest0. discriminate.
      * intros pq0 [= <-]. rewrite Hrest0. exact Hrest0times.
      * unfold eq_contents, current_contents. simpl. fold tq.
        rewrite Hslots, Hlen, Hrest0. reflexivity.
    + unfold eq_contents, current_contents. simpl. fold tq.
      rewrite Hslots, Hrest0. reflexivity.
Qed.

(** [next] on a queue that satisfies the invariant: it returns, it hands
    out the head of the contents, and the invariant holds of what it
    leaves. *)
Lemma eq_inv_next (declared : list string) (B : nat) (q : EventQueue.t)
    (fuel : nat) :
  eq_inv declared B q -> (B <= fuel)%nat ->
  match eq_contents B q with
  | [] => EventQueue.next fuel q = Some (q, Returned None)
  | e :: rest =>
    exists q' B',
      EventQueue.next fuel q = Some (q', Returned (Some e))
      /\ (B' <= B)%nat /\ eq_inv declared B' q'
      /\ eq_contents B' q' = rest
  end.
Proof.
  intros Hinv Hfuel.
  pose proof Hinv as [[Hlist Hqueues Hcurrent] Hhor Htq Hcur Hcount].
  destruct (eq_contents B q) as [|e rest] eqn:Hcontents.
  - apply next_on_empty. exact Hcount.
  - destruct (EventQueue._currentQueue q) as [pq|] eqn:Hcq.
    + destruct (Hcurrent pq eq_refl) as [Hpq Hne].
      destruct (next_after_advance declared B B q fuel
                  (EventQueue._currentTime q) pq Hinv)
        as (e' & rest' & q' & Heq & Hnext & Hinv' & Hrest); auto.
      * rewrite Hcq. apply advance_current.
      * lia.
      * intros k pq0 Hk. apply lookup_delete_Some in Hk as [_ Hk]. eauto.
      * rewrite Hcontents. unfold eq_contents, current_contents in Hcontents.
        rewrite Hcq in Hcontents. symmetry. exact Hcontents.
      * rewrite Hcontents in Heq. injection Heq as <- <-.
        exists q', B. auto.
    + assert (Hslots : slots (EventQueue._timeQueues q)
                         (EventQueue._currentTime q + 1) B = e :: rest).
      { unfold eq_contents, current_contents in Hcontents.
        rewrite Hcq in Hcontents. exact Hcontents. }
      destruct (advance_slots (EventQueue._timeQueues q) B
                  (EventQueue._currentTime q) fuel)
        as (ct' & pq & Hrange & Hadv & Hlook & Hgap & Hsplit);
        [rewrite Hslots; discriminate | exact Hfuel |].
      destruct (Hqueues _ _ Hlook) as [Hpq Hne].
      destruct (next_after_advance declared B
                  (B - Z.to_nat (ct' - EventQueue._currentTime q)) q fuel
                  ct' pq Hinv)
        as (e' & rest' & q' & Heq & Hnext & Hinv' & Hrest); auto.
      * rewrite Hcq. exact Hadv.
      * lia.
      * intros k pq0 Hk. apply lookup_delete_Some in Hk as [Hk0 Hk].
        destruct (Hhor _ _ Hk) as (z & -> & Hz).
        exists z. split; [reflexivity|].
        assert (z <> ct') by congruence.
        destruct (decide (z < ct')) as [Hlt|Hge].
        -- rewrite (Hgap z) in Hk by lia. discriminate.
        -- lia.
      * rewrite Hcontents, <- Hslots. exact Hsplit.
      * rewrite Hcontents in Heq. injection Heq as <- <-.
        exists q', (B - Z.to_nat (ct' - EventQueue._currentTime q))%nat.
        split_and!; auto. lia.
Qed.

End EventQueueNext.

(** ** Termination of [next] and the order of the drain *)

Lemma advance_mono (fuel fuel' : nat) (tq : gmap number PriorityQueue.t) :
  forall (ct : Z) (cq : option PriorityQueue.t) (found : Z * PriorityQueue.t),
    EventQueue.advance fuel tq ct cq = Some found -> (fuel <= fuel')%nat ->
    EventQueue.advance fuel' tq ct cq = Some found.
Proof.
  revert fuel'. induction fuel as [|fuel IH]; intros fuel' ct cq found.
  - simpl. destruct cq as [pq|]; [|discriminate].
    intros [= <-] _. apply advance_current.
  - simpl. destruct cq as [pq|].
    + intros [= <-] _. apply advance_current.
    + intros Hadv Hle. destruct fuel' as [|fuel']; [lia|]. simpl.
      apply IH; [exact Hadv | lia].
Qed.

(** More fuel does not change what a call of [next] that came back did. *)
Lemma next_mono (fuel fuel' : nat) (q : EventQueue.t)
    (result : EventQueue.t * outcome (option Event.t)) :
  EventQueue.next fuel q = Some result -> (fuel <= fuel')%nat ->
  EventQueue.next fuel' q = Some result.
Proof.
  unfold EventQueue.next. destruct (bool_decide _); [auto|].
  destruct (EventQueue.advance fuel _ _ _) as [found|] eqn:Hadv;
    [|discriminate].
  intros Hres Hle. rewrite (advance_mono _ _ _ _ _ _ Hadv Hle). exact Hres.
Qed.

Section DrainOrder.
Context `{RegExp}.
Variable declared : list string.

Lemma eq_reachable_inv (q : EventQueue.t) :
  empty_pattern_matches -> eq_reachable declared q ->
  exists B, eq_inv declared B q.
Proof.
  intros Hempty Hreach.
  induction Hreach as [|q event time q' event' _ [B IH] Hint Hgt Hadd
                       |q fuel q' r _ [B IH] Hnext].
  - exists 0%nat. apply (empty_at_inv declared 0).
  - destruct (eq_inv_add declared B q q' event event' time
                Hempty IH Hint Hgt Hadd) as (B' & _ & _ & _ & Hinv & _).
    exists B'. exact Hinv.
  - pose proof (eq_inv_next declared B q (Nat.max B fuel) IH ltac:(lia))
      as Hspec.
    pose proof (next_mono fuel (Nat.max B fuel) q _ Hnext ltac:(lia))
      as Hnext'.
    destruct (eq_contents B q) as [|e rest].
    + rewrite Hspec in Hnext'. injection Hnext' as <- <-.
      exists B. exact IH.
    + destruct Hspec as (q1 & B1 & Hnext1 & _ & Hinv1 & _).
      rewrite Hnext1 in Hnext'. injection Hnext' as <- <-.
      exists B1. exact Hinv1.
Qed.










End DrainOrder.

(** ** Property bags and handlers *)

Lemma lookup_without_registries (m : gmap string value) (k : string) :
  Entities.without_registries m !! k
  = if decide (k ∈ Entities.registry_names) then None else m !! k.
Proof.
  unfold Entities.without_registries.
  induction Entities.registry_names as [|r rs IH]; simpl.
  - destruct (decide (k ∈ [])) as [Hin|]; [inversion Hin | reflexivity].
  - destruct (decide (k = r)) as [->|Hne].
    + rewrite lookup_delete_eq, decide_True by left. reflexivity.
    + rewrite lookup_delete_ne, IH by congruence.
      destruct (decide (k ∈ rs)) as [Hin|Hnin].
      * rewrite decide_True by (right; exact Hin). reflexivity.
      * rewrite decide_False; [reflexivity|].
        intros Hin. apply elem_of_cons in Hin. tauto.
Qed.

Lemma lookup_Object_assign (target source : gmap string value) (k : string) :
  Event.Object_assign target source !! k
  = match source !! k with
    | Some v => Some v
    | None => target !! k
    end.
Proof.
  unfold Event.Object_assign. rewrite lookup_union.
  destruct (source !! k), (target !! k); reflexivity.
Qed.

(** C9.  The property bag is merged over the built-in fields.  On [Event]
    and on [EntityDescription] an entry of the bag named [name] or [guid]
    replaces the constructor's name or the generated guid, and an entry
    named [time] is the object's [time].  On [Entity] an entry named [name]
    replaces the name taken from the description, but [guid] is assigned
    after the merge: it is the generated one whatever the bag holds, and the
    four registries are the bound copies of the description's whatever the
    bag holds. *)
Theorem C9_bag_overrides_builtin_fields
    (uuid name : string) (bag : gmap string value)
    (this : Entities.loc) (d : Entities.EntityDescription) :
  (Event.new uuid name bag !! "name"
     = Some (default (VStr name) (bag !! "name"))
   /\ Event.new uuid name bag !! "guid"
      = Some (default (VStr uuid) (bag !! "guid"))
   /\ Event.new uuid name bag !! "time"
      = Some (default VUndefined (bag !! "time")))
  /\ (Entities.d_properties (Entities.EntityDescription_new uuid name bag)
        !! "name" = Some (default (VStr name) (bag !! "name"))
      /\ Entities.d_properties (Entities.EntityDescription_new uuid name bag)
           !! "guid" = Some (default (VStr uuid) (bag !! "guid"))
      /\ Entities.d_properties (Entities.EntityDescription_new uuid name bag)
           !! "time" = bag !! "time")
  /\ (Entities.properties (Entities.Entity_new this uuid d bag) !! "name"
        = match bag !! "name" with
          | Some v => Some v
          | None => Entities.d_properties d !! "name"
          end
      /\ Entities.properties (Entities.Entity_new this uuid d bag) !! "guid"
         = Some (VStr uuid)
      /\ Entities._eventHandlers (Entities.Entity_new this uuid d bag)
         = Entities.copy_registry this (Entities.d_eventHandlers d)
      /\ Entities._entityCreatedHandlers (Entities.Entity_new this uuid d bag)
         = Entities.copy_registry this (Entities.d_entityCreatedHandlers d)
      /\ Entities._entityDestroyedHandlers
           (Entities.Entity_new this uuid d bag)
         = Entities.copy_registry this (Entities.d_entityDestroyedHandlers d)
      /\ Entities._entityUpdatedHandlers (Entities.Entity_new this uuid d bag)
         = Entities.copy_registry this (Entities.d_entityUpdatedHandlers d)).
Proof.
  split_and!; try reflexivity.
  - unfold Event.new. rewrite lookup_Object_assign.
    destruct (bag !! "name"); reflexivity.
  - unfold Event.new. rewrite lookup_Object_assign.
    destruct (bag !! "guid"); reflexivity.
  - unfold Event.new. rewrite lookup_Object_assign.
    destruct (bag !! "time"); reflexivity.
  - simpl. rewrite lookup_without_registries, lookup_Object_assign.
    destruct (bag !! "name"); reflexivity.
  - simpl. rewrite lookup_without_registries, lookup_Object_assign.
    destruct (bag !! "guid"); reflexivity.
  - simpl. rewrite lookup_without_registries, lookup_Object_assign.
    destruct (bag !! "time"); reflexivity.
  - simpl. rewrite lookup_insert_ne by discriminate.
    rewrite lookup_without_registries, !lookup_Object_assign.
    rewrite lookup_empty. simpl.
    destruct (bag !! "name"); [reflexivity|].
    destruct (Entities.d_properties d !! "name"); reflexivity.
  - simpl. apply lookup_insert_eq.
Qed.

Section Handlers.
Import Entities.









End Handlers.

(** ** Further properties of the event queue *)

Section More.
Context `{RegExp}.


(** [nextTime] is unset exactly when the queue is empty, in every state
    reached by adds at integer times after the current time and by
    nexts. *)
Theorem nextTime_unset_iff_empty (declared : list string)
    (q : EventQueue.t) :
  empty_pattern_matches ->
  eq_reachable declared q ->
  EventQueue.nextTime q = None <-> EventQueue.length q = 0%nat.
Proof.
  intros Hempty Hreach. unfold EventQueue.nextTime, EventQueue.length.
  induction Hreach as [|q event time q' event' Hreach IH Hint Hgt Hadd
                       |q fuel q' r Hreach IH Hnext].
  - simpl. tauto.
  - rewrite add_unfold in Hadd.
    destruct (PriorityQueue.add _ _) as [queue' [u|err]]; simpl in Hadd;
      [|discriminate].
    injection Hadd as <- _. simpl.
    destruct (EventQueue._nextTime q) as [n|]; simpl.
    + destruct (truthy_number n); split; discriminate.
    + split; discriminate.
  - destruct (eq_reachable_inv declared q Hempty Hreach) as [B Hinv].
    pose proof (eq_inv_next declared B q (Nat.max B fuel) Hinv ltac:(lia))
      as Hspec.
    pose proof (next_mono fuel (Nat.max B fuel) q _ Hnext ltac:(lia))
      as Hnext'.
    destruct (eq_contents B q) as [|e rest].
    + rewrite Hspec in Hnext'. injection Hnext' as <- <-. exact IH.
    + destruct Hspec as (q1 & B1 & Hnext1 & _ & Hinv1 & _).
      rewrite Hnext1 in Hnext'. injection Hnext' as <- <-.
      pose proof (eq_inv_count _ _ _ Hinv1) as Hcount.
      pose proof (eq_wf_current _ _ (eq_inv_wf _ _ _ Hinv1)) as Hcurrent.
      revert Hnext1 Hcount Hcurrent. unfold EventQueue.next.
      destruct (bool_decide (EventQueue._length q = 0%nat));
        [intros [= <- ?]; discriminate|].
      destruct (EventQueue.advance _ _ _ _) as [[ct' pq]|]; [|discriminate].
      destruct (PriorityQueue.next pq) as [pq' [evt|err]]; [|discriminate].
      destruct (PriorityQueue.isEmpty pq').
      * intros [= <- _] _ _. simpl.
        destruct (bool_decide (pred (EventQueue._length q) = 0%nat)) eqn:Hz.
        -- apply bool_decide_eq_true_1 in Hz. tauto.
        -- apply bool_decide_eq_false_1 in Hz. split; [discriminate|tauto].
      * intros [= <- _] Hcount Hcurrent. simpl in *.
        destruct (Hcurrent pq' eq_refl) as [_ Hne].
        split; [discriminate|]. intros Hzero. exfalso.
        rewrite Hzero in Hcount. unfold eq_contents, current_contents in Hcount.
        simpl in Hcount. destruct (pq_contents pq'); [congruence|].
        simpl in Hcount. lia.
Qed.

Lemma advance_no_integer_key (tq : gmap number PriorityQueue.t) :
  (forall z, tq !! of_Z z = None) ->
  forall (fuel : nat) (ct : Z), EventQueue.advance fuel tq ct None = None.
Proof.
  intros Hnone. induction fuel as [|fuel IH]; intros ct; simpl.
  - reflexivity.
  - rewrite Hnone. apply IH.
Qed.

(** An event scheduled through the base class at a time that is not an
    integer is counted but never handed out: on a new queue the loop of
    [next] steps over it, whatever fuel it is given. *)
Theorem non_integer_time_is_never_reached (declared : list string)
    (event : Event.t) (t : number) :
  truthy_number t = true ->
  isInteger t = false ->
  (EventQueue.add (EventQueue.new declared) event (Some t)).2 = Returned tt ->
  let q := (EventQueue.add (EventQueue.new declared) event (Some t)).1.1 in
  EventQueue.length q = 1%nat
  /\ forall fuel : nat, EventQueue.next fuel q = None.
Proof.
  intros Htruthy Hfrac. rewrite add_unfold.
  assert (Ht : EventQueue.timeToUse (EventQueue.new declared) event (Some t)
               = t).
  { unfold EventQueue.timeToUse. rewrite Htruthy. reflexivity. }
  rewrite Ht.
  destruct (PriorityQueue.add _ _) as [queue' [u|err]]; simpl;
    [|discriminate].
  intros _. split; [reflexivity|]. intros fuel.
  unfold EventQueue.next. simpl.
  rewrite advance_no_integer_key; [reflexivity|].
  intros z. rewrite lookup_insert_ne, lookup_empty; [reflexivity|].
  intros ->. rewrite isInteger_of_Z in Hfrac. discriminate.
Qed.

End More.

(** ** The theorems at concrete inputs *)

(** The repository's bucket-queue tests, computed. *)
Example test_priority_queue_unique_events :
  next_names 5
    (@add_names miniRegExp (PriorityQueue.new ["a"; "b"; "c"])
       ["a"; "c"; "e"; "b"])
  = [Some "a"; Some "b"; Some "c"; Some "e"; None].
Proof. vm_compute. reflexivity. Qed.

Example test_priority_queue_patterns :
  next_names 9
    (@add_names miniRegExp (PriorityQueue.new ["^a.*"; "^b.*"; "^c.*"])
       ["b"; "c"; "d"; "a"; "cat"; "dog"; "bird"; "anaconda"])
  = [Some "a"; Some "anaconda"; Some "b"; Some "bird"; Some "c";
     Some "cat"; Some "d"; Some "dog"; None].
Proof. vm_compute. reflexivity. Qed.

(** An asterisk in the caller's list is not taken for a catch-all (the
    empty pattern is pushed all the same), and it is no regular expression:
    the scan of [add] throws when it reaches it. *)
Example asterisk_is_no_pattern :
  PriorityQueue._priorityList (PriorityQueue.new ["a"; "*"]) = ["a"; "*"; ""]
  /\ (@PriorityQueue.add miniRegExp (PriorityQueue.new ["a"; "*"])
        (example_event "a")).2 = Returned tt
  /\ @PriorityQueue.add miniRegExp (PriorityQueue.new ["a"; "*"])
       (example_event "x")
     = (PriorityQueue.new ["a"; "*"], Thrown SyntaxError).
Proof. vm_compute. repeat split; reflexivity. Qed.

Example test_strict_rejections :
  (@StrictPriorityQueue.add miniRegExp (PriorityQueue.new [])
     (Event.mk None None ∅)).2
  = Thrown (ValidationError EventsMustHaveAName)
  /\ (@StrictEventQueue.add miniRegExp (StrictEventQueue.new [])
        (example_event "a") (Some (of_Z (-1)))).2
     = Thrown (ValidationError (TimeBeforeCurrent (of_Z (-1)) 0))
  /\ (@StrictEventQueue.add miniRegExp (StrictEventQueue.new [])
        (Event.mk (Some "a") (Some (of_Z (-1))) ∅) None).2
     = Thrown (ValidationError (TimeBeforeCurrent (of_Z (-1)) 0)).
Proof. vm_compute. repeat split; reflexivity. Qed.




(** The drain of the example queue, computed: "a" then "b" at time 1 (the
    pattern order beats the insertion order), then "c" at time 3. *)
Example example_drain :
  exists q',
    drain 3 3 example_queue_3
    = Some ([Event.mk (Some "a") (Some (of_Z 1)) ∅;
             Event.mk (Some "b") (Some (of_Z 1)) ∅;
             Event.mk (Some "c") (Some (of_Z 3)) ∅], q').
Proof. eexists. vm_compute. reflexivity. Qed.



(** The example queue is reached from a new queue by its three adds. *)
Lemma example_reachable :
  @eq_reachable miniRegExp example_declared example_queue_3.
Proof.
  apply (@eq_reach_add miniRegExp _ example_queue_2
           (example_event "c") (Some (of_Z 3)) _
           (Event.mk (Some "c") (Some (of_Z 3)) ∅));
    [|vm_compute; reflexivity | vm_compute; reflexivity
     |vm_compute; reflexivity].
  apply (@eq_reach_add miniRegExp _ example_queue_1
           (example_event "a") None _
           (Event.mk (Some "a") (Some (of_Z 1)) ∅));
    [|vm_compute; reflexivity | vm_compute; reflexivity
     |vm_compute; reflexivity].
  apply (@eq_reach_add miniRegExp _ (EventQueue.new example_declared)
           (example_event "b") None _
           (Event.mk (Some "b") (Some (of_Z 1)) ∅));
    [|vm_compute; reflexivity | vm_compute; reflexivity
     |vm_compute; reflexivity].
  constructor.
Qed.



Example example_run :
  exists q,
    @eq_run miniRegExp true (EventQueue.new example_declared)
      example_run_calls = Some (q, 1%nat, 1%nat)
    /\ EventQueue.length q = 0%nat.
Proof. eexists. vm_compute. split; reflexivity. Qed.

(** The repository's entity test, computed: after the first entity handles
    an event with [prop = 3], its [prop] is 3 and the second entity's is
    still 1. *)
Example example_entities :
  let '(h1, o1) := Entities.entity example_heap 1%positive "guid-1" ∅ in
  let '(h2, o2) := Entities.entity h1 1%positive "guid-2" ∅ in
  match o1, o2 with
  | Some l1, Some l2 =>
    let h3 := Entities.handleEvent h2 l1 example_handled_event in
    (Entities.object_properties <$> h3 !! l1) ≫= (.!! "prop")
    = Some (VNum (of_Z 3))
    /\ (Entities.object_properties <$> h3 !! l2) ≫= (.!! "prop")
       = Some (VNum (of_Z 1))
    /\ (Entities.object_properties <$> h3 !! 1%positive) ≫= (.!! "prop")
       = Some (VNum (of_Z 1))
  | _, _ => False
  end.
Proof. vm_compute. repeat split; reflexivity. Qed.

(** On the example queue. *)
Lemma nextTime_unset_iff_empty_witness :
  EventQueue.nextTime example_queue_3 = None
  <-> EventQueue.length example_queue_3 = 0%nat.
Proof.
  exact (@nextTime_unset_iff_empty miniRegExp example_declared
           example_queue_3 (fun text => eq_refl) example_reachable).
Defined.

(** An event added for time 3/2. *)
Lemma non_integer_time_witness :
  let q := (@EventQueue.add miniRegExp (EventQueue.new example_declared)
              (example_event "a") (Some (Finite (Q2Qc (3 # 2))))).1.1 in
  EventQueue.length q = 1%nat
  /\ forall fuel : nat, EventQueue.next fuel q = None.
Proof.
  exact (@non_integer_time_is_never_reached miniRegExp example_declared
           (example_event "a") (Finite (Q2Qc (3 # 2)))
           eq_refl eq_refl eq_refl).
Defined.

(** ** Further properties of the bucket queue *)

Lemma next_scan_empty (names : list string)
    (m : gmap string (list Event.t)) :
  (forall p, p ∈ names -> m !! p = Some []) ->
  PriorityQueue.next_scan m names = Returned None.
Proof.
  induction names as [|n names IH]; intros Hall; simpl.
  - reflexivity.
  - rewrite (Hall n) by left. apply IH. intros p Hp. apply Hall. right.
    exact Hp.
Qed.

(** [setPriorities] on a queue of the base class, whatever the queue holds:
    every bucket is empty afterwards, but [length] and [isEmpty] answer as
    before, and [next] returns nothing and changes nothing.  So on a queue
    that held events, the events are gone, the counter still counts them
    and no number of calls of [next] brings it down. *)
Theorem setPriorities_drops_events_keeps_length (q : PriorityQueue.t)
    (priorityList : list string) :
  let q' := PriorityQueue.setPriorities q priorityList in
  (forall p l, PriorityQueue._eventQueues q' !! p = Some l -> l = [])
  /\ PriorityQueue.length q' = PriorityQueue.length q
  /\ PriorityQueue.isEmpty q' = PriorityQueue.isEmpty q
  /\ PriorityQueue.next q' = (q', Returned None).
Proof.
  simpl. split_and!.
  - intros p l. unfold PriorityQueue.setPriorities. simpl.
    rewrite buckets_lookup, lookup_empty.
    destruct (decide _); congruence.
  - reflexivity.
  - reflexivity.
  - unfold PriorityQueue.next.
    destruct (bool_decide _); [reflexivity|].
    rewrite next_scan_empty; [reflexivity|].
    intros p Hp. unfold PriorityQueue.setPriorities in *. simpl in *.
    rewrite buckets_lookup, decide_True by exact Hp. reflexivity.
Qed.

Section BucketOrder.
Context `{RegExp}.
Variable declared : list string.

(** Inserting a numbered event into a list sorted by rank, then sequence,
    behind the events of the same or a better rank and ahead of those of a
    worse one, keeps the list sorted. *)
Lemma rank_insert (T : list (nat * Event.t)) (pre post : list Event.t)
    (n : nat) (e : Event.t) :
  StronglySorted (rank_before declared) T ->
  Forall (fun x => (x.1 < n)%nat) T ->
  T.*2 = pre ++ post ->
  Forall (fun x => (event_rank declared x <= event_rank declared e)%nat)
         pre ->
  Forall (fun x => (event_rank declared e < event_rank declared x)%nat)
         post ->
  exists T',
    T'.*2 = pre ++ e :: post
    /\ StronglySorted (rank_before declared) T'
    /\ Permutation T' (T ++ [(n, e)])
    /\ Forall (fun x => (x.1 < S n)%nat) T'.
Proof.
  intros Hsorted Htags Hsnd Hpre Hpost.
  set (k := length pre).
  assert (HT : T = take k T ++ drop k T) by (symmetry; apply take_drop).
  assert (H1 : (take k T).*2 = pre).
  { rewrite fmap_take, Hsnd. apply take_app_length. }
  assert (H2 : (drop k T).*2 = post).
  { rewrite fmap_drop, Hsnd. apply drop_app_length. }
  rewrite HT in Hsorted, Htags.
  apply StronglySorted_app in Hsorted as (Hcross & Hs1 & Hs2).
  apply Forall_app in Htags as [Ht1 Ht2].
  exists (take k T ++ (n, e) :: drop k T). split_and!.
  - rewrite fmap_app, fmap_cons, H1, H2. reflexivity.
  - apply StronglySorted_app_2.
    + intros x1 x2 Hx1 Hx2. apply elem_of_cons in Hx2 as [->|Hx2];
        [|auto].
      rewrite list.Forall_forall in Hpre.
      rewrite list.Forall_forall in Ht1.
      assert (Hle : (event_rank declared x1.2 <= event_rank declared e)%nat).
      { apply Hpre. rewrite <- H1. apply list_elem_of_fmap. eauto. }
      specialize (Ht1 x1 Hx1). simpl in Ht1.
      unfold rank_before. simpl. lia.
    + exact Hs1.
    + constructor; [exact Hs2|].
      apply list.Forall_forall. intros y Hy. left. simpl.
      rewrite list.Forall_forall in Hpost. apply Hpost.
      rewrite <- H2. apply list_elem_of_fmap. eauto.
  - transitivity ((take k T ++ drop k T) ++ [(n, e)]);
      [|rewrite take_drop; reflexivity].
    rewrite <- app_assoc.
    apply Permutation_app_head. apply Permutation_cons_append.
  - apply Forall_app. split; [|constructor].
    + eapply List.Forall_impl; [|exact Ht1]. simpl. lia.
    + simpl. lia.
    + eapply List.Forall_impl; [|exact Ht2]. simpl. lia.
Qed.

(** A strict [add] that returns is the [add] of the base class. *)
Lemma pq_strict_add_returned (q q' : PriorityQueue.t) (e : Event.t) :
  StrictPriorityQueue.add q e = (q', Returned tt) ->
  PriorityQueue.add q e = (q', Returned tt)
  /\ Event.truthy_name e = true.
Proof.
  unfold StrictPriorityQueue.add, assert.
  destruct (Event.truthy_name e); [auto | discriminate].
Qed.

Lemma pq_adds_numbered (strict : bool) (events : list Event.t) :
  empty_pattern_matches ->
  forall (q q' : PriorityQueue.t) (T : list (nat * Event.t)) (n : nat),
    pq_inv declared q ->
    T.*2 = pq_contents q ->
    StronglySorted (rank_before declared) T ->
    Forall (fun x => (x.1 < n)%nat) T ->
    pq_adds strict q events = Some q' ->
    exists T',
      pq_inv declared q'
      /\ T'.*2 = pq_contents q'
      /\ StronglySorted (rank_before declared) T'
      /\ Permutation T' (T ++ numbered n events).
Proof.
  intros Hempty.
  induction events as [|e events IH]; intros q q' T n Hinv HT Hs Htags; simpl.
  - intros [= <-]. exists T. rewrite app_nil_r. auto.
  - intros Hadds.
    assert (Hadd : exists q1, PriorityQueue.add q e = (q1, Returned tt)
                              /\ pq_adds strict q1 events = Some q').
    { destruct strict.
      - destruct (StrictPriorityQueue.add q e) as [q1 [[]|err]] eqn:Hsa;
          [|discriminate].
        apply pq_strict_add_returned in Hsa as [Hsa _]. eauto.
      - destruct (PriorityQueue.add q e) as [q1 [[]|err]] eqn:Ha;
          [|discriminate].
        eauto. }
    destruct Hadd as (q1 & Hadd & Hrest).
    destruct (pq_add_ok declared q e Hempty Hinv)
      as (q1' & pre & post & Hadd' & Hinv1 & Hc & Hc1 & Hpre & Hpost).
    { rewrite Hadd. reflexivity. }
    rewrite Hadd in Hadd'. injection Hadd' as <-.
    destruct (rank_insert T pre post n e Hs Htags) as (T1 & HT1 & Hs1 & Hp1 & Htags1);
      [congruence | exact Hpre | exact Hpost |].
    destruct (IH q1 q' T1 (S n) Hinv1) as (T' & Hinv' & HT' & Hs' & Hp');
      [congruence | exact Hs1 | exact Htags1 | exact Hrest |].
    exists T'. split_and!; auto.
    rewrite Hp', Hp1, <- app_assoc. reflexivity.
Qed.

Lemma pq_drain_contents (L : list Event.t) :
  forall q : PriorityQueue.t,
    pq_inv declared q -> pq_contents q = L ->
    exists q', pq_drain (length L) q = Some (L, q')
               /\ pq_inv declared q' /\ pq_contents q' = [].
Proof.
  induction L as [|e rest IH]; intros q Hinv Hc; simpl.
  - exists q. auto.
  - pose proof (pq_next_spec declared q Hinv) as Hnext.
    rewrite Hc in Hnext. destruct Hnext as (q1 & -> & Hinv1 & Hc1).
    destruct (IH q1 Hinv1 Hc1) as (q' & -> & Hq'). exists q'. auto.
Qed.

(** The bucket queue alone.  Take a queue just built from [declared], or
    emptied again, of either class, and adds that all return.  Then as many
    calls of [next] return the added events, every one of them once, in the
    order: rank of the first declared pattern that matches the name (the
    catch-all last), then insertion sequence; and they leave the queue
    empty, where [next] returns nothing. *)
Theorem bucket_queue_drains_by_rank_then_insertion (strict : bool)
    (q0 q : PriorityQueue.t) (events : list Event.t) :
  empty_pattern_matches ->
  pq_reachable declared q0 ->
  PriorityQueue.length q0 = 0%nat ->
  pq_adds strict q0 events = Some q ->
  exists out : list (nat * Event.t),
    Permutation out (numbered 0 events)
    /\ StronglySorted (rank_before declared) out
    /\ exists q',
         pq_drain (length events) q = Some (out.*2, q')
         /\ PriorityQueue.length q' = 0%nat
         /\ PriorityQueue.next q' = (q', Returned None).
Proof.
  intros Hempty Hreach Hzero Hadds.
  pose proof (pq_reachable_inv declared q0 Hempty Hreach) as Hinv0.
  assert (Hc0 : pq_contents q0 = []).
  { apply length_zero_iff_nil. rewrite <- (pq_inv_length _ _ Hinv0).
    exact Hzero. }
  destruct (pq_adds_numbered strict events Hempty q0 q [] 0 Hinv0)
    as (out & Hinv & Hout & Hsorted & Hperm);
    [rewrite Hc0; reflexivity | constructor | constructor | exact Hadds |].
  exists out. split_and!; [exact Hperm | exact Hsorted |].
  destruct (pq_drain_contents (out.*2) q Hinv (eq_sym Hout))
    as (q' & Hdrain & Hinv' & Hc').
  exists q'. split_and!.
  - assert (Hlen : length events = length (out.*2)).
    { rewrite length_fmap, (Permutation_length Hperm).
      simpl. clear. generalize 0%nat.
      induction events as [|e l IH]; intros n; simpl;
        [reflexivity | rewrite <- IH; reflexivity]. }
    rewrite Hlen. exact Hdrain.
  - unfold PriorityQueue.length. rewrite (pq_inv_length _ _ Hinv'), Hc'.
    reflexivity.
  - pose proof (pq_next_spec declared q' Hinv') as Hnext.
    rewrite Hc' in Hnext. exact Hnext.
Qed.

End BucketOrder.

(** ** Further properties of the event queue: interleaved calls *)

Section Interleaving.
Context `{RegExp}.
Variable declared : list string.









End Interleaving.

(** ** Further properties of the event queue: [nextTime] and the clock *)





Section NextTime.
Context `{RegExp}.
Variable declared : list string.





Lemma advance_nothing_ahead (tq : gmap number PriorityQueue.t) (c : Z) :
  (forall k, c < k -> tq !! of_Z k = None) ->
  forall (fuel : nat) (ct : Z),
    c <= ct -> EventQueue.advance fuel tq ct None = None.
Proof.
  intros Hnone. induction fuel as [|fuel IH]; intros ct Hct; simpl.
  - reflexivity.
  - rewrite Hnone by lia. apply IH. lia.
Qed.

(** An event scheduled through the base class at an integer time that is
    not after the current time -- on a queue just constructed ([c = 0]) or
    drained at time [c] -- is counted but never handed out: the loop of
    [next] starts after the current time and does not end, whatever fuel
    it is given. *)
Theorem past_time_is_never_reached (c z : Z) (event : Event.t) :
  z <= c -> z <> 0 ->
  (EventQueue.add (empty_at declared c) event (Some (of_Z z))).2
  = Returned tt ->
  let q := (EventQueue.add (empty_at declared c) event (Some (of_Z z))).1.1 in
  EventQueue.length q = 1%nat
  /\ EventQueue.nextTime q = Some (of_Z z)
  /\ forall fuel : nat, EventQueue.next fuel q = None.
Proof.
  intros Hpast Hnz. rewrite add_unfold.
  assert (Ht : EventQueue.timeToUse (empty_at declared c) event
                 (Some (of_Z z)) = of_Z z).
  { unfold EventQueue.timeToUse.
    rewrite (proj2 (truthy_of_Z z) Hnz). reflexivity. }
  rewrite Ht.
  destruct (PriorityQueue.add _ _) as [queue' [u|err]]; simpl;
    [|discriminate].
  intros _. split_and!; [reflexivity | reflexivity |]. intros fuel.
  unfold EventQueue.next. simpl.
  rewrite (advance_nothing_ahead _ c); [reflexivity | | lia].
  intros k Hk. rewrite lookup_insert_ne, lookup_empty; [reflexivity|].
  apply of_Z_neq. lia.
Qed.

End NextTime.

(** ** Further properties of entities *)

Section EntitiesMore.
Import Entities.






End EntitiesMore.

(** ** Utilities and the construction of events *)

(** The typed [assert] of the queues and [assert] of [util.ts] on the same
    boolean throw together. *)
Lemma assert_typed (condition : bool) (a : assertion) (message : string) :
  assert condition a = Returned tt
  <-> Util.assert (VBool condition) message = inr tt.
Proof.
  unfold assert, Util.assert. simpl. destruct condition; split; congruence.
Qed.


Section EventsMore.
Import Events.

Lemma lookup_assign (target source : gmap string value) (k : string) :
  assign target source !! k
  = if decide (k = "__proto__") then target !! k
    else match source !! k with
         | Some v => Some v
         | None => target !! k
         end.
Proof.
  unfold assign. rewrite lookup_Object_assign.
  destruct (decide (k = "__proto__")) as [->|Hk].
  - rewrite lookup_delete_eq. reflexivity.
  - rewrite lookup_delete_ne by congruence. reflexivity.
Qed.

Lemma lookup_Event_new (uuid : string) (name : value) (k : string) :
  Event_new uuid name ∅ !! k
  = if decide (k = "time") then Some VUndefined
    else if decide (k = "guid") then Some (VStr uuid)
    else if decide (k = "name") then Some name
    else None.
Proof.
  unfold Event_new, assign. rewrite delete_empty.
  rewrite lookup_Object_assign, lookup_empty.
  destruct (decide (k = "time")) as [->|Ht]; [apply lookup_insert_eq|].
  rewrite lookup_insert_ne by congruence.
  destruct (decide (k = "guid")) as [->|Hg]; [apply lookup_insert_eq|].
  rewrite lookup_insert_ne by congruence.
  destruct (decide (k = "name")) as [->|Hn]; [apply lookup_insert_eq|].
  rewrite lookup_insert_ne by congruence. apply lookup_empty.
Qed.

(** The constructor for a name of any type is [Event.new] on strings, for
    a bag without a property named [__proto__]. *)
Lemma Event_new_string (uuid name : string) (bag : gmap string value) :
  bag !! "__proto__" = None ->
  Event_new uuid (VStr name) bag = Event.new uuid name bag.
Proof.
  intros Hbag. unfold Event_new, assign, Event.new.
  rewrite delete_id by exact Hbag. reflexivity.
Qed.

(** What [eventFromObject] builds. *)
Lemma eventFromObject_lookup (uuid : string) (obj evt : gmap string value) :
  eventFromObject uuid obj = inr evt ->
  ("toString" ∉ dom obj)
  /\ Util.truthy (get obj "name") = true
  /\ forall k,
       evt !! k
       = if decide (k = "__proto__") then None
         else match obj !! k with
              | Some v => Some v
              | None =>
                if decide (k = "time") then Some VUndefined
                else if decide (k = "guid") then Some (VStr uuid)
                else None
              end.
Proof.
  unfold eventFromObject, template_text, Util.assert.
  destruct (bool_decide ("toString" ∈ dom obj)) eqn:Hts; [discriminate|].
  apply bool_decide_eq_false_1 in Hts.
  destruct (Util.truthy (get obj "name")) eqn:Hname; [|discriminate].
  intros [= <-]. split_and!; [exact Hts | reflexivity |].
  intros k. rewrite lookup_assign, lookup_Event_new.
  destruct (decide (k = "__proto__")) as [->|Hk]; [reflexivity|].
  destruct (obj !! k) as [v|] eqn:Hobj; [reflexivity|].
  destruct (decide (k = "time")); [reflexivity|].
  destruct (decide (k = "guid")); [reflexivity|].
  destruct (decide (k = "name")) as [->|]; [|reflexivity].
  unfold get in Hname. rewrite Hobj in Hname. discriminate.
Qed.


(** Wrapping twice is wrapping once: an event built by [eventFromObject],
    passed to [eventFromObject] again, comes back with the same properties
    -- the guid of the first wrapping included, whatever guid the second
    one generates. *)
Theorem eventFromObject_twice (uuid uuid' : string)
    (obj evt : gmap string value) :
  eventFromObject uuid obj = inr evt ->
  eventFromObject uuid' evt = inr evt.
Proof.
  intros Hev.
  destruct (eventFromObject_lookup uuid obj evt Hev) as (Hts & Hname & Hlook).
  assert (Hobjname : exists v, obj !! "name" = Some v /\ Util.truthy v = true).
  { unfold get in Hname. destruct (obj !! "name") as [v|]; [eauto|].
    discriminate. }
  destruct Hobjname as (v & Hv & Htruthy).
  assert (Hevtname : evt !! "name" = Some v).
  { rewrite Hlook, Hv. reflexivity. }
  unfold eventFromObject, template_text, Util.assert.
  rewrite bool_decide_eq_false_2.
  - unfold get at 1. rewrite Hevtname. simpl. rewrite Htruthy.
    f_equal. apply map_eq. intros k.
    rewrite lookup_assign, lookup_Event_new.
    destruct (decide (k = "__proto__")) as [->|Hk].
    + rewrite Hlook. reflexivity.
    + destruct (evt !! k) as [w|] eqn:Hevt; [reflexivity|].
      rewrite Hlook in Hevt. rewrite decide_False in Hevt by exact Hk.
      destruct (obj !! k) eqn:Hobjk; [discriminate|].
      destruct (decide (k = "time")); [discriminate|].
      destruct (decide (k = "guid")); [discriminate|].
      destruct (decide (k = "name")) as [->|]; [|reflexivity].
      congruence.
  - rewrite elem_of_dom, Hlook. simpl. intros [w Hw].
    destruct (obj !! "toString") eqn:Hobj.
    + apply Hts. apply elem_of_dom. eauto.
    + discriminate.
Qed.

End EventsMore.

Section Stamping.
Context `{RegExp}.

Lemma timeToUse_explicit (q : EventQueue.t) (ev : Event.t) (t : number) :
  truthy_number t = true -> EventQueue.timeToUse q ev (Some t) = t.
Proof. unfold EventQueue.timeToUse. intros ->. reflexivity. Qed.

Lemma timeToUse_stamped (q : EventQueue.t) (ev : Event.t) (t : number) :
  EventQueue.timeToUse q (Event.set_time t ev) None
  = if truthy_number t then t else of_Z (EventQueue._currentTime q + 1).
Proof. reflexivity. Qed.

Lemma add_stamped (q : EventQueue.t) (ev : Event.t) (t : number) :
  truthy_number t = true ->
  EventQueue.add q (Event.set_time t ev) None = EventQueue.add q ev (Some t).
Proof.
  intros Ht. unfold EventQueue.add.
  rewrite timeToUse_stamped, timeToUse_explicit, Ht by exact Ht.
  reflexivity.
Qed.

(** [event.at(t)] and the queues.  [at] throws when [t] is not an integer
    and changes nothing; otherwise it sets the time and nothing else.  For
    a time other than 0, adding the stamped event without a time argument
    is adding the event with [t] as time argument -- the same queue and the
    same outcome, for both classes -- and the strict class never refuses
    it for its time not being an integer.  A stamp of 0 is accepted by
    [at] and not honoured by [add], which schedules at the tick after the
    current time. *)
Theorem at_then_add_is_add_with_time (q : EventQueue.t) (ev : Event.t)
    (t : number) :
  match Events.at_ ev t with
  | inl e =>
    isInteger t = false /\ e = Util.Error "Event times must be integers."
  | inr ev' =>
    isInteger t = true
    /\ ev' = Event.set_time t ev
    /\ (truthy_number t = true ->
        EventQueue.add q ev' None = EventQueue.add q ev (Some t)
        /\ (StrictEventQueue.add q ev' None).1.1
           = (StrictEventQueue.add q ev (Some t)).1.1
        /\ (StrictEventQueue.add q ev' None).2
           = (StrictEventQueue.add q ev (Some t)).2
        /\ forall t', (StrictEventQueue.add q ev' None).2
                      <> Thrown (ValidationError (TimeNotInteger t')))
    /\ (truthy_number t = false ->
        t = of_Z 0
        /\ EventQueue.timeToUse q ev' None
           = of_Z (EventQueue._currentTime q + 1))
  end.
Proof.
  unfold Events.at_, Util.assert. cbn [Util.truthy].
  destruct (isInteger t) eqn:Hint; [|auto].
  split_and!; [reflexivity | reflexivity | |].
  - intros Ht.
    assert (Hstrict :
      forall r : EventQueue.t * Event.t * outcome unit,
        StrictEventQueue.add q ev (Some t) = r ->
        (StrictEventQueue.add q (Event.set_time t ev) None).1.1 = r.1.1
        /\ (StrictEventQueue.add q (Event.set_time t ev) None).2 = r.2
        /\ forall t', r.2 <> Thrown (ValidationError (TimeNotInteger t'))).
    { intros r <-. unfold StrictEventQueue.add, assert.
      change (Event.truthy_name (Event.set_time t ev))
        with (Event.truthy_name ev).
      destruct (Event.truthy_name ev); [|simpl; split_and!; congruence].
      unfold StrictEventQueue.checkedTime. simpl. rewrite Ht, Hint.
      destruct (gt_Z t (EventQueue._currentTime q));
        [|simpl; split_and!; congruence].
      rewrite (add_stamped q ev t Ht). split_and!; [reflexivity..|].
      intros t'. apply add_not_validation. }
    destruct (Hstrict _ eq_refl) as (H1 & H2 & H3).
    split_and!; [apply add_stamped; exact Ht | exact H1 | exact H2 |].
    intros t'. rewrite H2. apply H3.
  - intros Ht. rewrite timeToUse_stamped, Ht. split; [|reflexivity].
    destruct (isInteger_inv t Hint) as [z ->].
    destruct (decide (z = 0)) as [->|Hz]; [reflexivity|].
    rewrite (proj2 (truthy_of_Z z) Hz) in Ht. discriminate.
Qed.

End Stamping.

(** ** Loggers *)

Section LoggingMore.
Import Logging.

Lemma elem_of_initial_topics (topics : list string) (t : string) :
  t ∈ initial_topics topics <-> t ∈ topics.
Proof.
  unfold initial_topics.
  assert (Hgen : forall s : gset string,
            t ∈ foldl (fun s0 t0 => {[t0]} ∪ s0) s topics
            <-> t ∈ s \/ t ∈ topics).
  { induction topics as [|x topics IH]; intros s; simpl.
    - split; [auto|]. intros [?|Hin]; [assumption | inversion Hin].
    - rewrite IH, elem_of_union, elem_of_singleton, elem_of_cons. tauto. }
  rewrite Hgen. split; [|auto]. intros [Hin|?]; [|assumption].
  apply elem_of_empty in Hin. contradiction.
Qed.

Lemma prefix_spec (value s : string) :
  String.prefix value s = true <-> exists b, s = value +:+ b.
Proof.
  revert s. induction value as [|c value IH]; intros s; simpl.
  - split; [intros _; exists s; reflexivity | destruct s; reflexivity].
  - destruct s as [|c' s]; simpl.
    + split; [discriminate | intros [b Hb]; discriminate].
    + destruct (Ascii.ascii_dec c c') as [->|Hne].
      * rewrite IH. split.
        -- intros [b ->]. exists b. reflexivity.
        -- intros [b Hb]. injection Hb as ->. exists b. reflexivity.
      * split; [discriminate|]. intros [b Hb]. injection Hb as -> _.
        contradiction.
Qed.

(** [includes]: the value occurs somewhere in the string. *)
Lemma includes_spec (s value : string) :
  includes s value = true <-> exists a b, s = a +:+ value +:+ b.
Proof.
  induction s as [|c s IH].
  - change (includes "" value) with (String.prefix value "" || false).
    rewrite orb_false_r, prefix_spec. split.
    + intros [b Hb]. exists "", b. exact Hb.
    + intros (a & b & Hab). destruct a; [eauto | discriminate].
  - change (includes (String c s) value)
      with (String.prefix value (String c s) || includes s value).
    rewrite orb_true_iff, prefix_spec, IH. split.
    + intros [[b Hb]|(a & b & Hab)].
      * exists "", b. exact Hb.
      * exists (String c a), b. rewrite Hab. reflexivity.
    + intros (a & b & Hab). destruct a as [|c' a].
      * left. exists b. exact Hab.
      * right.
        change (String c' a +:+ value +:+ b)
          with (String c' (a +:+ value +:+ b)) in Hab.
        injection Hab as -> ->. eauto.
Qed.

Lemma append_empty (s : string) : s +:+ "" = s.
Proof.
  induction s as [|c s IH]; [reflexivity|].
  change (String c s +:+ "") with (String c (s +:+ "")).
  rewrite IH. reflexivity.
Qed.

Lemma includes_self (s : string) : includes s s = true.
Proof.
  apply includes_spec. exists "", "".
  change ("" +:+ s +:+ "") with (s +:+ "").
  symmetry. apply append_empty.
Qed.

(** [contains].  With [checkSubstr] false it answers false whatever the
    buffer holds -- the very message included --, because the comparison
    for equality sits inside the branch for substrings.  With [checkSubstr]
    true, or left out, it answers whether some buffered message has the
    value as a substring. *)
Theorem contains_checks_substrings_only (l : StringLogger.t)
    (value : string) :
  StringLogger.contains l value (Some false) = false
  /\ StringLogger.contains l value None
     = StringLogger.contains l value (Some true)
  /\ (StringLogger.contains l value (Some true) = true
      <-> exists s a b, s ∈ StringLogger.strings l
                        /\ s = a +:+ value +:+ b).
Proof.
  unfold StringLogger.contains, StringLogger.strings. simpl.
  split_and!.
  - induction (StringLogger._buffer l) as [|s rest IH];
      [reflexivity | exact IH].
  - reflexivity.
  - induction (StringLogger._buffer l) as [|s rest IH]; simpl.
    + split; [discriminate|]. intros (s & a & b & Hin & _). inversion Hin.
    + destruct (includes s value) eqn:Hinc.
      * split; [|reflexivity]. intros _.
        apply includes_spec in Hinc as (a & b & Hab).
        exists s, a, b. split; [left | exact Hab].
      * destruct (bool_decide (s = value)) eqn:Heq.
        { apply bool_decide_eq_true_1 in Heq. subst s.
          rewrite includes_self in Hinc. discriminate. }
        rewrite IH. split.
        -- intros (s' & a & b & Hin & Hab). exists s', a, b.
           split; [right; exact Hin | exact Hab].
        -- intros (s' & a & b & Hin & Hab).
           apply elem_of_cons in Hin as [->|Hin]; [|eauto 6].
           exfalso. apply not_true_iff_false in Hinc. apply Hinc.
           apply includes_spec. eauto.
Qed.

Lemma logger_run_snoc (l : StringLogger.t) (calls : list logger_call)
    (c : logger_call) :
  logger_run l (calls ++ [c]) = logger_do (logger_run l calls) c.
Proof. unfold logger_run. rewrite foldl_app. reflexivity. Qed.

(** What a [StringLogger] holds after any sequence of calls: its buffer is
    the list of the messages that were logged since the latest [clear] on
    a topic enabled at the time, in the order they were logged; and a topic
    is enabled exactly when the latest call about it was [addTopic], or
    when no call was about it and the constructor was given it.  So
    removing a topic stops its messages from then on and takes none back,
    adding it twice or removing an absent topic changes nothing, and
    [clear] leaves the topics alone. *)
Theorem string_logger_keeps_what_was_logged (initial : list string)
    (calls : list logger_call) :
  let l := logger_run (StringLogger.new initial) calls in
  StringLogger.strings l = logged initial (rev calls)
  /\ forall topic : string,
       topic ∈ topics l <-> enabled initial (rev calls) topic = true.
Proof.
  simpl. induction calls as [|c calls [IHs IHt]] using rev_ind.
  - split; [reflexivity|]. intros topic. simpl.
    rewrite elem_of_initial_topics, bool_decide_eq_true. reflexivity.
  - rewrite logger_run_snoc, rev_app_distr. simpl.
    set (l := logger_run (StringLogger.new initial) calls) in *.
    destruct c as [topic message|topic|topic|]; simpl.
    + unfold log. simpl.
      destruct (bool_decide (topic ∈ StringLogger._topics l)) eqn:Hin.
      * apply bool_decide_eq_true_1 in Hin.
        rewrite (proj1 (IHt topic) Hin). simpl. split.
        -- unfold StringLogger.strings in *. simpl. rewrite IHs.
           reflexivity.
        -- exact IHt.
      * apply bool_decide_eq_false_1 in Hin.
        destruct (enabled initial (rev calls) topic) eqn:Hen.
        -- exfalso. apply Hin. apply IHt. exact Hen.
        -- split; [exact IHs | exact IHt].
    + split; [exact IHs|]. intros t.
      rewrite elem_of_union, elem_of_singleton.
      destruct (decide (topic = t)) as [->|Hne].
      * split; auto.
      * rewrite <- IHt. split; [intros [?|?]; [congruence|assumption] | auto].
    + split; [exact IHs|]. intros t.
      rewrite elem_of_difference, elem_of_singleton.
      destruct (decide (topic = t)) as [->|Hne].
      * split; [intros [_ Hn]; contradiction | discriminate].
      * rewrite <- IHt. split; [tauto | intros ?; split; [assumption|]].
        congruence.
    + split; [reflexivity | exact IHt].
Qed.

(** [isLogging] does not look at the topics.  Its answer for a topic is the
    same after any sequence of calls as on a logger constructed without
    topics, and the same whether the topic has just been added or just
    been removed -- while [log] writes for the one and not for the
    other. *)
Theorem isLogging_does_not_look_at_the_topics `{SetObject}
    (initial : list string) (calls : list logger_call)
    (topic message : string) :
  let l := logger_run (StringLogger.new initial) calls in
  isLogging l topic = isLogging (StringLogger.new []) topic
  /\ isLogging (addTopic l topic) topic
     = isLogging (removeTopic l topic) topic
  /\ (exists l', log (addTopic l topic) topic message = inr l'
                 /\ StringLogger.strings l'
                    = StringLogger.strings l ++ [message])
  /\ log (removeTopic l topic) topic message = inr (removeTopic l topic).
Proof.
  simpl. split_and!; [reflexivity | reflexivity | |].
  - unfold log. simpl. rewrite bool_decide_eq_true_2.
    + eexists. split; reflexivity.
    + apply elem_of_union. left. apply elem_of_singleton. reflexivity.
  - unfold log. simpl. rewrite bool_decide_eq_false_2; [reflexivity|].
    rewrite elem_of_difference, elem_of_singleton. tauto.
Qed.

(** The base class cannot write: [log] on an enabled topic throws the
    TypeError of [_write], on any other topic it returns and nothing has
    changed.  The console logger prints the message, once, exactly when
    the topic is enabled. *)
Lemma base_logger_throws_console_logger_prints
    (base : BaseLogger.t) (con : ConsoleLogger.t) (topic message : string) :
  (log base topic message
   = if bool_decide (topic ∈ topics base)
     then inl (Util.WriteTypeError message) else inr base)
  /\ exists con',
       log con topic message = inr con'
       /\ topics con' = topics con
       /\ ConsoleLogger.console con'
          = ConsoleLogger.console con
            ++ (if bool_decide (topic ∈ topics con) then [message] else []).
Proof.
  split; [reflexivity|]. unfold log. simpl.
  destruct (bool_decide _); eexists; split_and!; try reflexivity.
  simpl. rewrite app_nil_r. reflexivity.
Qed.

End LoggingMore.

(** ** The simulation's entities *)

Section SimulationMore.
Import Simulation.

Lemma sim_run_snoc (sim : EntitySimulation) (calls : list sim_call)
    (c : sim_call) :
  sim_run sim (calls ++ [c]) = sim_do (sim_run sim calls) c.
Proof. unfold sim_run. rewrite foldl_app. reflexivity. Qed.

Lemma sim_do_lookup (sim : EntitySimulation) (c : sim_call) (g : string) :
  g <> "__proto__" ->
  entities (sim_do sim c) !! g
  = if decide (call_guid c = g) then
      match c with
      | AddEntity entity => Some entity
      | DestroyEntity _ => None
      end
    else entities sim !! g.
Proof.
  intros Hg. destruct c as [entity|[g'|entity]]; simpl.
  - destruct (decide (guid entity = g)) as [->|Hne].
    + rewrite bool_decide_eq_false_2 by exact Hg. apply lookup_insert_eq.
    + destruct (bool_decide (guid entity = "__proto__")); [reflexivity|].
      apply lookup_insert_ne. exact Hne.
  - destruct (decide (g' = g)) as [->|Hne].
    + apply lookup_delete_eq.
    + apply lookup_delete_ne. exact Hne.
  - destruct (decide (guid entity = g)) as [->|Hne].
    + apply lookup_delete_eq.
    + apply lookup_delete_ne. exact Hne.
Qed.

Lemma sim_do_proto (sim : EntitySimulation) (c : sim_call) :
  entities sim !! "__proto__" = None ->
  entities (sim_do sim c) !! "__proto__" = None.
Proof.
  intros Hnone. destruct c as [entity|[g'|entity]]; simpl.
  - destruct (bool_decide (guid entity = "__proto__")) eqn:Hg;
      [exact Hnone|].
    apply bool_decide_eq_false_1 in Hg.
    rewrite lookup_insert_ne by exact Hg. exact Hnone.
  - apply lookup_delete_None. auto.
  - apply lookup_delete_None. auto.
Qed.

Lemma latest_added_guid (latest_first : list sim_call) (g : string) :
  is_Some (latest_added latest_first g) ->
  exists c, c ∈ latest_first /\ call_guid c = g.
Proof.
  induction latest_first as [|c older IH]; simpl.
  - intros [e He]. discriminate.
  - destruct (decide (call_guid c = g)) as [<-|Hne].
    + intros _. exists c. split; [left | reflexivity].
    + intros Hs. destruct (IH Hs) as (c' & Hin & Hc').
      exists c'. split; [right; exact Hin | exact Hc'].
Qed.

(** The entities of a simulation after any sequence of [addEntity] and
    [destroyEntity] calls on a new simulation.  Under a guid the simulation
    holds the entity of the latest call about that guid if that call was
    [addEntity], and nothing otherwise -- and never anything under
    [__proto__]; [numberEntities] is the number of guids for which it
    holds one.  So an entity added twice counts once, an entity added
    under the guid of another replaces it, destroying by entity or by guid
    is the same, and destroying what is not there changes nothing. *)
Theorem simulation_holds_the_latest_added (name : option string)
    (timeStepped : option bool) (calls : list sim_call) :
  let sim := sim_run (new name timeStepped) calls in
  numberEntities (new name timeStepped) = 0%nat
  /\ (forall g : string, entities sim !! g = registered (rev calls) g)
  /\ numberEntities sim
     = length (filter (fun g => is_Some (registered (rev calls) g))
                      (remove_dups (call_guid <$> calls))).
Proof.
  simpl.
  assert (Hlook : forall g : string,
            entities (sim_run (new name timeStepped) calls) !! g
            = registered (rev calls) g).
  { intros g. unfold registered.
    destruct (decide (g = "__proto__")) as [->|Hg].
    - induction calls as [|c calls IH] using rev_ind.
      + apply lookup_empty.
      + rewrite sim_run_snoc. apply sim_do_proto. exact IH.
    - induction calls as [|c calls IH] using rev_ind.
      + apply lookup_empty.
      + rewrite sim_run_snoc, rev_app_distr, sim_do_lookup by exact Hg.
        simpl. destruct (decide (call_guid c = g)); [reflexivity | apply IH]. }
  split_and!; [reflexivity | exact Hlook |].
  unfold numberEntities.
  set (live := filter (fun g => is_Some (registered (rev calls) g))
                      (remove_dups (call_guid <$> calls))).
  assert (Hdom : dom (entities (sim_run (new name timeStepped) calls))
                 = list_to_set live).
  { apply set_eq. intros g.
    rewrite elem_of_dom, Hlook, elem_of_list_to_set.
    unfold live. rewrite list_elem_of_filter, elem_of_remove_dups.
    split; [|tauto]. intros Hs. split; [exact Hs|].
    unfold registered in Hs.
    destruct (decide (g = "__proto__")); [destruct Hs; discriminate|].
    apply latest_added_guid in Hs as (c & Hin & <-).
    apply list_elem_of_fmap. exists c. split; [reflexivity|].
    apply list_elem_of_In. apply in_rev. apply list_elem_of_In. exact Hin. }
  rewrite <- size_dom, Hdom. apply size_list_to_set.
  unfold live. apply NoDup_filter, NoDup_remove_dups.
Qed.

End SimulationMore.

(** ** Handler lists *)

Section HandlerLists.
Import EventHandlerList.
Context {W E : Type}.
Context `{ObjectPrototype}.















End HandlerLists.

(** ** The further properties at concrete inputs *)

Lemma example_bucket_adds :
  @pq_adds miniRegExp true (PriorityQueue.new example_declared)
    example_bucket_events = Some example_bucket_queue.
Proof. vm_compute. reflexivity. Qed.

(** Four strict adds on the bucket queue of the example, drained. *)
Lemma bucket_queue_drains_witness :
  exists out : list (nat * Event.t),
    Permutation out (numbered 0 example_bucket_events)
    /\ StronglySorted (@rank_before miniRegExp example_declared) out
    /\ exists q',
         pq_drain (length example_bucket_events) example_bucket_queue
         = Some (out.*2, q')
         /\ PriorityQueue.length q' = 0%nat
         /\ PriorityQueue.next q' = (q', Returned None).
Proof.
  exact (@bucket_queue_drains_by_rank_then_insertion miniRegExp
           example_declared true (PriorityQueue.new example_declared)
           example_bucket_queue example_bucket_events
           (fun text => eq_refl)
           (@pq_reach_new miniRegExp example_declared) eq_refl
           example_bucket_adds).
Defined.

(** The drain, computed: "a", the two "b" in the order they were added,
    then "x" from the catch-all. *)
Example example_bucket_drain :
  exists q',
    pq_drain 4 example_bucket_queue
    = Some ([example_event "a"; example_event "b"; example_event "b";
             example_event "x"], q').
Proof. eexists. vm_compute. reflexivity. Qed.

(** [setPriorities] on that queue: four events counted, none left. *)
Example example_setPriorities :
  let q := PriorityQueue.setPriorities example_bucket_queue ["x"] in
  PriorityQueue.length q = 4%nat
  /\ PriorityQueue.isEmpty q = false
  /\ PriorityQueue.next q = (q, Returned None).
Proof. vm_compute. repeat split; reflexivity. Qed.



(** The interleaved run, computed: "a", added for tick 2 after "b" came
    out at tick 1, comes out before "c", added earlier for tick 3; the
    event without a name was refused; the last [next] finds nothing. *)
Example example_interleaved_run :
  exists q,
    @eq_history miniRegExp true (StrictEventQueue.new example_declared)
      example_interleaved_calls
    = Some (q,
            [Event.mk (Some "b") (Some (of_Z 1)) ∅;
             Event.mk (Some "c") (Some (of_Z 3)) ∅;
             Event.mk (Some "a") (Some (of_Z 2)) ∅],
            [Event.mk (Some "b") (Some (of_Z 1)) ∅;
             Event.mk (Some "a") (Some (of_Z 2)) ∅;
             Event.mk (Some "c") (Some (of_Z 3)) ∅])
    /\ EventQueue.length q = 0%nat.
Proof. eexists. vm_compute. split; reflexivity. Qed.




(** [nextTime] along the drain of the example queue, computed: 1 while "b"
    is still waiting at tick 1, then 3. *)
Example example_nextTime :
  EventQueue.nextTime example_queue_4 = Some (of_Z 1)
  /\ (EventQueue.nextTime <$> (fst <$> EventQueue.next 0 example_queue_4))
     = Some (Some (of_Z 3)).
Proof. vm_compute. split; reflexivity. Qed.

Lemma example_past_add :
  (@EventQueue.add miniRegExp (empty_at example_declared 0)
     (example_event "a") (Some (of_Z (-1)))).2 = Returned tt.
Proof. vm_compute. reflexivity. Qed.

(** An event added to a new queue of the base class for time -1. *)
Lemma past_time_witness :
  EventQueue.length
    (@EventQueue.add miniRegExp (empty_at example_declared 0)
       (example_event "a") (Some (of_Z (-1)))).1.1 = 1%nat
  /\ EventQueue.nextTime
       (@EventQueue.add miniRegExp (empty_at example_declared 0)
          (example_event "a") (Some (of_Z (-1)))).1.1
     = Some (of_Z (-1))
  /\ forall fuel : nat,
       EventQueue.next fuel
         (@EventQueue.add miniRegExp (empty_at example_declared 0)
            (example_event "a") (Some (of_Z (-1)))).1.1 = None.
Proof.
  exact (@past_time_is_never_reached miniRegExp example_declared 0 (-1)
           (example_event "a") ltac:(lia) ltac:(lia) example_past_add).
Defined.



Lemma example_wrapping :
  Events.eventFromObject "guid-1" example_object = inr example_wrapped.
Proof. vm_compute. reflexivity. Qed.

(** The event of the repository's test, wrapped again. *)
Lemma eventFromObject_twice_witness :
  Events.eventFromObject "guid-2" example_wrapped = inr example_wrapped.
Proof.
  exact (eventFromObject_twice "guid-1" "guid-2" example_object
           example_wrapped example_wrapping).
Defined.

(** The repository's test of [eventFromObject], and of a bad object. *)
Example test_event_from_object :
  example_wrapped !! "name" = Some (VStr "my.event")
  /\ example_wrapped !! "time" = Some (VNum (of_Z 12))
  /\ example_wrapped !! "otherprop" = Some (VStr "xyz")
  /\ example_wrapped !! "guid" = Some (VStr "guid-1")
  /\ exists text,
       Events.eventFromObject "guid-1" {["prop" := VStr "value"]}
       = inl (Util.Error text).
Proof. vm_compute. split_and!; try reflexivity. eexists. reflexivity. Qed.

(** An object with a property named [toString] cannot be made an event,
    whatever its name. *)
Example test_event_from_object_toString :
  Events.eventFromObject "guid-1"
    {["name" := VStr "my.event"; "toString" := VStr "text"]}
  = inl Util.ConversionTypeError.
Proof. vm_compute. reflexivity. Qed.

(** The repository's test of the time-advance event on an entity whose
    handler copies the event's time. *)
Example test_time_advance :
  Events.at_ (Events.SimulationTimeAdvance "guid-1" None) (of_Z 2)
  = inr (Event.mk (Some "scarab.simulation.time-advance") (Some (of_Z 2))
           (<["previousTime" := VNum (of_Z 0)]>
              {["guid" := VStr "guid-1"]}))
  /\ Events.at_ (Events.SimulationTimeAdvance "guid-1" None)
       (Finite (Q2Qc (3 # 2)))
     = inl (Util.Error "Event times must be integers.").
Proof. vm_compute. split; reflexivity. Qed.

(** The repository's logger test. *)
Example test_string_logger :
  let l1 := logger_run (Logging.StringLogger.new ["1"])
              example_logger_calls_1 in
  let l2 := logger_run (Logging.StringLogger.new ["1"])
              example_logger_calls_2 in
  Logging.StringLogger.contains l1 "log_msg1" None = true
  /\ Logging.StringLogger.contains l1 "log_msg2" None = false
  /\ Logging.StringLogger.contains l1 "log_msg" (Some false) = false
  /\ Logging.StringLogger.contains l1 "log_msg" None = true
  /\ Logging.StringLogger.contains l2 "log_msg1" None = false
  /\ Logging.StringLogger.contains l2 "log_msg2" None = false
  /\ Logging.StringLogger.contains l2 "log_msg3" None = true
  /\ Logging.StringLogger.strings l2 = ["log_msg3"].
Proof. vm_compute. split_and!; reflexivity. Qed.

(** [isLogging] in a runtime of the 2015 edition: false for an enabled
    topic, true for the name of a method of [Set]. *)
Example test_isLogging :
  @Logging.isLogging _ Logging.es2015_Set
    (Logging.StringLogger.new ["test"]) "test" = false
  /\ @Logging.isLogging _ Logging.es2015_Set
       (Logging.StringLogger.new []) "has" = true.
Proof. vm_compute. split; reflexivity. Qed.

(** The repository's simulation test. *)
Example test_simulation :
  Simulation.numberEntities (Simulation.new None None) = 0%nat
  /\ Simulation.name (Simulation.new None None) = "unknown-simulation"
  /\ Simulation.timeStepped (Simulation.new None None) = true
  /\ Simulation.numberEntities
       (sim_run (Simulation.new None None) (take 2 example_sim_calls))
     = 2%nat
  /\ Simulation.numberEntities
       (sim_run (Simulation.new None None) (take 3 example_sim_calls))
     = 1%nat
  /\ Simulation.numberEntities
       (sim_run (Simulation.new None None) (take 4 example_sim_calls))
     = 2%nat
  /\ Simulation.numberEntities
       (sim_run (Simulation.new None None) example_sim_calls) = 0%nat
  /\ Simulation.destroyEntity (Simulation.new None None) (inl "unknown")
     = Simulation.new None None.
Proof. vm_compute. split_and!; reflexivity. Qed.

(** An entity whose guid is [__proto__] is not counted. *)
Example test_simulation_proto :
  Simulation.numberEntities
    (Simulation.addEntity (Simulation.new None None)
       (example_entity 2 "__proto__")) = 0%nat.
Proof. vm_compute. reflexivity. Qed.

(** [invoke] on the handler list of the example: the entities with an
    array index as guid come first, in ascending order, then "a", whose
    first handler throws and whose second handler is called all the same,
    then "b" with the one handler added after the removal. *)
Example test_handler_list :
  @EventHandlerList.invoke (list string) string
    (@hl_run _ _ es2015_Object (EventHandlerList.new "tick")
       example_handler_calls)
    (example_event "tick") [] []
  = (["7"; "10"; "a1"; "a2"; "b3"], [("tick", "a1")]).
Proof. vm_compute. reflexivity. Qed.

(** The repository's tests of [assert] and [missing]. *)
Example test_util :
  Util.assert (VBool true) "that's not right!" = inr tt
  /\ Util.assert (VBool false) "that's not right!"
     = inl (Util.Error "that's not right!")
  /\ Util.missing VUndefined = true
  /\ Util.missing VNull = true
  /\ Util.missing (VStr "I'm OK") = false
  /\ Util.missing (VNum (of_Z 0)) = false.
Proof. vm_compute. split_and!; reflexivity. Qed.




(** Why the patterns have to be regular expressions.  With the patterns
    "a" and "*", the add of "x" throws when the scan reaches "*", after
    the bucket queue for tick 1 was stored; the add of "a" for tick 2
    returns.  Then [next] takes the empty bucket queue of tick 1, gets
    nothing from it and counts one event less: it returns nothing, the
    queue says it is empty, and "a" is still stored for tick 2. *)
Example malformed_pattern_loses_an_event :
  EventQueue.length example_broken_queue = 1%nat
  /\ exists q',
       EventQueue.next 1 example_broken_queue = Some (q', Returned None)
       /\ EventQueue.length q' = 0%nat
       /\ EventQueue.isEmpty q' = true
       /\ (pq_contents <$> EventQueue._timeQueues q' !! of_Z 2)
          = Some [Event.mk (Some "a") (Some (of_Z 2)) ∅]
       /\ forall fuel, EventQueue.next fuel q' = Some (q', Returned None).
Proof.
  split; [vm_compute; reflexivity|]. eexists. split_and!.
  - vm_compute. reflexivity.
  - vm_compute. reflexivity.
  - vm_compute. reflexivity.
  - vm_compute. reflexivity.
  - intros fuel. apply next_on_empty. vm_compute. reflexivity.
Qed.



